(** * realtorca: the seen-listing deduplication run

    A shallow embedding of [main.go]: the [DB] store ([Seen],
    [refreshCache], [MarkSeen], [Flush]), the [Notifier] and the
    coordinator [HandleRequest], with the three external services
    (listing search, DynamoDB table, SNS topic) made explicit as an
    environment of verdicts and a world of durable state. *)

From stdpp Require Import base strings list gmap.

(** ** Constants *)

Definition baseURL : string := "https://realtor.ca".
Definition dynamoPartitionKeyValue : string := "seen-listings".

(** ** Data *)

(** Go's [error] values, one constructor per origin. [None : option error]
    is Go's [nil] error. *)
Inductive error : Type :=
| FetchError          (* fetchListings: Do, ReadAll or json.Unmarshal *)
| GetItemError        (* refreshCache: GetItemWithContext *)
| UnmarshalError      (* refreshCache: dynamodbattribute.UnmarshalMap *)
| CacheNotPopulated   (* MarkSeen: errors.New "cache is not populated yet" *)
| PublishError        (* SendListingAlert: PublishWithContext *)
| PutItemError.       (* Flush: PutItemWithContext *)

Record Listing : Type := mkListing {
  ID : string;
  RelativeDetailsURL : string
}.

Definition URL (l : Listing) : string := baseURL +:+ RelativeDetailsURL l.

Record Listings : Type := mkListings { Results : list Listing }.

(** [SeenIDs] is a Go slice: an ordered sequence in which an identifier
    may occur more than once. *)
Record ListingCache : Type := mkListingCache {
  PartitionKey : string;
  SeenIDs : list string
}.

(** The [DB] struct. [cache] is a pointer: [None] is [nil]. The [dynamo]
    client field is the handle on the table kept in the [World]. *)
Record DB : Type := mkDB { cache : option ListingCache }.

(** A Go call either returns or dereferences a nil pointer and panics. *)
Inductive ret (A : Type) : Type :=
| Return (a : A)
| NilDeref.
Arguments Return {A} a.
Arguments NilDeref {A}.

(** ** External services *)

(** What the table holds under the key ["seen-listings"]. *)
Inductive Item : Type :=
| Absent                              (* GetItem finds no record *)
| Stored (c : ListingCache)           (* a record with both attributes *)
| Undecodable (partial : ListingCache).
    (* a record UnmarshalMap rejects; [partial] is what had been decoded
       into the target when the error was raised *)

Record PublishInput : Type := mkPublishInput {
  Message : string;
  Subject : string
}.

(** Durable state outside the process: the table item and the messages
    the topic has accepted, oldest first. *)
Record World : Type := mkWorld {
  table : Item;
  topic : list PublishInput
}.

(** The verdicts of the external calls of one run. Within a run a listing
    is published at most once (a rejected publish ends the loop, an
    accepted one is followed by [MarkSeen]), so the transport's verdict is
    indexed by the listing. *)
Record Env : Type := mkEnv {
  fetch_response : option Listings;   (* [None]: the search request failed *)
  getitem_ok : bool;
  putitem_ok : bool;
  publish_ok : Listing → bool
}.

(** ** fetchListings *)

Definition fetchListings (env : Env) : Listings * option error :=
  match fetch_response env with
  | Some listings => (listings, None)
  | None => (mkListings [], Some FetchError)
  end.

(** ** DB *)

Definition NewDB : DB := mkDB None.

(** Modelled from the spec: the AWS SDK's [dynamodbattribute.UnmarshalMap]
    is not part of this repository. Called with [&db.cache], it first
    makes the target point to a struct (allocating a zero [ListingCache]
    when the pointer is nil) and then decodes the attributes present in
    the item; an absent item has none, so the zero struct is left and no
    error is returned ("if no record exists, the working set initializes
    empty"). *)
Definition UnmarshalMap (item : Item) (out : option ListingCache)
  : option ListingCache * option error :=
  match item with
  | Absent => (Some (default (mkListingCache "" []) out), None)
  | Stored c => (Some c, None)
  | Undecodable partial => (Some partial, Some UnmarshalError)
  end.

Definition refreshCache (env : Env) (w : World) (db : DB) : DB * option error :=
  if getitem_ok env then
    let '(c, e) := UnmarshalMap (table w) (cache db) in
    match e with
    | Some e => (mkDB c, Some e)
    | None => (mkDB c, None)
    end
  else (db, Some GetItemError).

(** The [for _, seenId := range ... { if listing.ID == seenId ... }] scan. *)
Fixpoint scan (id : string) (ids : list string) : bool :=
  match ids with
  | [] => false
  | seenId :: rest => if String.eqb id seenId then true else scan id rest
  end.

Definition Seen (env : Env) (w : World) (listing : Listing) (db : DB)
  : DB * ret (bool * option error) :=
  let '(db1, e) :=
    match cache db with
    | None => refreshCache env w db
    | Some _ => (db, None)
    end in
  match e with
  | Some e => (db1, Return (false, Some e))
  | None =>
      match cache db1 with
      | None => (db1, NilDeref)                 (* db.cache.SeenIDs *)
      | Some c => (db1, Return (scan (ID listing) (SeenIDs c), None))
      end
  end.

Definition MarkSeen (listing : Listing) (db : DB) : DB * option error :=
  match cache db with
  | None => (db, Some CacheNotPopulated)
  | Some c =>
      (mkDB (Some (mkListingCache (PartitionKey c) (SeenIDs c ++ [ID listing]))),
       None)
  end.

(** [MarshalMap] of a [ListingCache] cannot fail: the written item is the
    record itself. *)
Definition Flush (env : Env) (w : World) (db : DB)
  : DB * World * ret (option error) :=
  match cache db with
  | None => (db, w, NilDeref)                   (* db.cache.PartitionKey = ... *)
  | Some c =>
      let c' := mkListingCache dynamoPartitionKeyValue (SeenIDs c) in
      let db' := mkDB (Some c') in
      if putitem_ok env
      then (db', mkWorld (Stored c') (topic w), Return None)
      else (db', w, Return (Some PutItemError))
  end.

(** ** Notifier *)

Definition formatMessage (listing : Listing) : string := URL listing.
Definition formatSubject (listing : Listing) : string := "New listing on Realtor.ca".

(** The [&sns.PublishInput{...}] literal ([TopicArn] is fixed). *)
Definition alertInput (listing : Listing) : PublishInput :=
  mkPublishInput (formatMessage listing) (formatSubject listing).

Definition SendListingAlert (env : Env) (w : World) (listing : Listing)
  : World * option error :=
  if publish_ok env listing
  then (mkWorld (table w) (topic w ++ [alertInput listing]), None)
  else (w, Some PublishError).

(** ** HandleRequest *)

(** The calls the coordinator makes on its collaborators, with what each
    returned. This log is ghost state: it records, it never decides. *)
Inductive Call : Type :=
| CallSeen (l : Listing) (r : ret (bool * option error))
| CallSend (l : Listing) (r : option error)
| CallMarkSeen (l : Listing) (r : option error)
| CallFlush (r : ret (option error)).

Record State : Type := mkState {
  db : DB;
  world : World;
  calls : list Call
}.

(** Lines 215-230: the loop over [listings.Results] and the final
    [return nil]. The result is the value returned, or a panic. *)
Fixpoint process (env : Env) (ls : list Listing) (st : State)
  : State * ret (option error) :=
  match ls with
  | [] => (st, Return None)
  | listing :: rest =>
      let '(db1, r) := Seen env (world st) listing (db st) in
      let log1 := calls st ++ [CallSeen listing r] in
      match r with
      | NilDeref => (mkState db1 (world st) log1, NilDeref)
      | Return (_, Some e) => (mkState db1 (world st) log1, Return (Some e))
      | Return (true, None) => process env rest (mkState db1 (world st) log1)
      | Return (false, None) =>
          let '(w2, e) := SendListingAlert env (world st) listing in
          let log2 := log1 ++ [CallSend listing e] in
          match e with
          | Some e => (mkState db1 w2 log2, Return (Some e))
          | None =>
              let '(db3, m) := MarkSeen listing db1 in   (* _ = db.MarkSeen(...) *)
              process env rest (mkState db3 w2 (log2 ++ [CallMarkSeen listing m]))
          end
      end
  end.

Inductive Outcome : Type :=
| Returned (e : option error)   (* HandleRequest returned [e] *)
| Panicked                      (* a panic: nil dereference, or session.Must *)
| Exited (e : error).           (* log.Fatal in the deferred closure *)

Record Run : Type := mkRun {
  outcome : Outcome;
  final : World;
  trace : list Call
}.

(** The deferred closure (lines 206-211), entered with the loop's state
    [st] and the value [r] the function is returning (or its panic). *)
Definition deferred (env : Env) (st : State) (r : ret (option error)) : Run :=
  let '(_, w', f) := Flush env (world st) (db st) in
  let log := calls st ++ [CallFlush f] in
  match f with
  | NilDeref => mkRun Panicked w' log
  | Return (Some e) => mkRun (Exited e) w' log
  | Return None =>
      match r with
      | Return x => mkRun (Returned x) w' log
      | NilDeref => mkRun Panicked w' log
      end
  end.

(** [HandleRequest] from line 200 on, that is once [session.Must] has
    returned the session (lines 193-198; the whole function, session step
    included, is [HandleRequest_entry] below). The closure runs on every
    exit taken after the [defer] statement, panics included; the return on
    a fetch error comes before it. *)
Definition HandleRequest (env : Env) (w : World) : Run :=
  let '(listings, e) := fetchListings env in
  match e with
  | Some e => mkRun (Returned (Some e)) w []
  | None =>
      let '(st, r) := process env (Results listings) (mkState NewDB w []) in
      deferred env st r
  end.

(** [HandleRequest] from its first statement. [session_ok] is the verdict
    of [session.NewSessionWithOptions]: on an error [session.Must] panics,
    before the fetch and before any call on the store or the notifier. *)
Definition HandleRequest_entry (session_ok : bool) (env : Env) (w : World) : Run :=
  if session_ok then HandleRequest env w else mkRun Panicked w [].

(** ** Observations on a run *)

(** The set of identifiers a cache denotes. *)
Definition seen_set (c : ListingCache) : gset string := list_to_set (SeenIDs c).

(** The identifier sequence a successful load of the item yields. *)
Definition decodes (it : Item) : option (list string) :=
  match it with
  | Absent => Some []
  | Stored c => Some (SeenIDs c)
  | Undecodable _ => None
  end.

(** The listings for which [SendListingAlert] was called. *)
Fixpoint sends (log : list Call) : list Listing :=
  match log with
  | [] => []
  | CallSend l _ :: rest => l :: sends rest
  | _ :: rest => sends rest
  end.

(** How many times [Flush] was called. *)
Fixpoint flushes (log : list Call) : nat :=
  match log with
  | [] => 0
  | CallFlush _ :: rest => S (flushes rest)
  | _ :: rest => flushes rest
  end.

(** How many times [Flush] got as far as [PutItemWithContext]. *)
Fixpoint writes (log : list Call) : nat :=
  match log with
  | [] => 0
  | CallFlush (Return _) :: rest => S (writes rest)
  | _ :: rest => writes rest
  end.

(** The listings for which [MarkSeen] was called. *)
Fixpoint marks (log : list Call) : list Listing :=
  match log with
  | [] => []
  | CallMarkSeen l _ :: rest => l :: marks rest
  | _ :: rest => marks rest
  end.

(** A sequence of store operations, for the store's own invariants. *)
Inductive StoreOp : Type :=
| OpSeen (l : Listing)
| OpMarkSeen (l : Listing).

Definition apply_op (env : Env) (w : World) (d : DB) (op : StoreOp) : DB :=
  match op with
  | OpSeen l => (Seen env w l d).1
  | OpMarkSeen l => (MarkSeen l d).1
  end.

Definition apply_ops (env : Env) (w : World) (ops : list StoreOp) (d : DB) : DB :=
  foldl (apply_op env w) d ops.

Fixpoint marked (ops : list StoreOp) : list string :=
  match ops with
  | [] => []
  | OpMarkSeen l :: rest => ID l :: marked rest
  | OpSeen _ :: rest => marked rest
  end.

(** ** Sample data *)

Definition lA : Listing := mkListing "A" "/a".
Definition lB : Listing := mkListing "B" "/b".
Definition lC : Listing := mkListing "C" "/c".

(** Every external call succeeds. *)
Definition envOK (ls : list Listing) : Env :=
  mkEnv (Some (mkListings ls)) true true (λ _, true).

(** The topic rejects exactly the listing with identifier [id]. *)
Definition envRejecting (id : string) (ls : list Listing) : Env :=
  mkEnv (Some (mkListings ls)) true true (λ l, negb (String.eqb (ID l) id)).

(** The table read fails. *)
Definition envNoRead (ls : list Listing) : Env :=
  mkEnv (Some (mkListings ls)) false true (λ _, true).

Definition record (ids : list string) : Item :=
  Stored (mkListingCache dynamoPartitionKeyValue ids).

(** The two worlds of the absence-is-empty comparison. *)
Definition absent_world (tp : list PublishInput) : World := mkWorld Absent tp.
Definition empty_world (pk : string) (tp : list PublishInput) : World :=
  mkWorld (Stored (mkListingCache pk [])) tp.

(** Two stores answer alike when both are unloaded or both hold the same
    identifier sequence. *)
Definition same_ids (d1 d2 : DB) : Prop :=
  SeenIDs <$> cache d1 = SeenIDs <$> cache d2.

Definition db_with_A : DB := mkDB (Some (mkListingCache dynamoPartitionKeyValue ["A"])).

(** Three unseen listings, the topic rejects the second; Z was seen
    before. *)
Definition run_second_rejected : Run :=
  HandleRequest (envRejecting "B" [lA; lB; lC]) (mkWorld (record ["Z"]) []).

(** The table read fails on the first [Seen]. *)
Definition run_read_fails : Run :=
  HandleRequest (envNoRead [lA]) (mkWorld (record ["Z"]) []).

(** ** Startup: requiredEnvVar and init *)

(** The process environment as [os.Getenv] sees it: an unset variable
    reads as the empty string. *)
Definition Getenv : Type := string → string.

(** A startup step returns or panics with a message. *)
Inductive startup (A : Type) : Type :=
| Started (a : A)
| PanicWith (msg : string).
Arguments Started {A} a.
Arguments PanicWith {A} msg.

Definition requiredEnvVar (getenv : Getenv) (key : string) : startup string :=
  let ret := getenv key in
  if String.eqb ret ""
  then PanicWith ("Required environment variable not set: " +:+ key)
  else Started ret.

(** The four package variables [init] assigns from the environment (it
    also sets the constant search [payload], which no function modelled
    here reads). *)
Record Config : Type := mkConfig {
  awsRegion : string;
  awsAccountId : string;
  dynamoTableName : string;
  snsTopicName : string
}.

Definition init (getenv : Getenv) : startup Config :=
  match requiredEnvVar getenv "AWS_REGION" with
  | PanicWith m => PanicWith m
  | Started region =>
      match requiredEnvVar getenv "AWS_ACCOUNT_ID" with
      | PanicWith m => PanicWith m
      | Started account =>
          match requiredEnvVar getenv "DYNAMO_TABLE_NAME" with
          | PanicWith m => PanicWith m
          | Started tbl =>
              match requiredEnvVar getenv "SNS_TOPIC_NAME" with
              | PanicWith m => PanicWith m
              | Started topicName => Started (mkConfig region account tbl topicName)
              end
          end
      end
  end.

(** The variables [init] requires, in the order it reads them. *)
Definition required_keys : list string :=
  ["AWS_REGION"; "AWS_ACCOUNT_ID"; "DYNAMO_TABLE_NAME"; "SNS_TOPIC_NAME"].

(** The first required variable that is unset or empty, if any. *)
Fixpoint first_unset (getenv : Getenv) (keys : list string) : option string :=
  match keys with
  | [] => None
  | k :: rest => if String.eqb (getenv k) "" then Some k else first_unset getenv rest
  end.

(** [NewNotifier]: the topic ARN built from the session's region (the
    [awsRegion] the session was configured with) and the two package
    variables. *)
Definition topicArn (cfg : Config) : string :=
  "arn:aws:sns:" +:+ awsRegion cfg +:+ ":" +:+ awsAccountId cfg +:+ ":"
    +:+ snsTopicName cfg.

(** ** More observations and sample data *)

(** Whether the last call of a log is a [Flush] whose write succeeded. *)
Definition flushed (log : list Call) : bool :=
  match last log with
  | Some (CallFlush (Return None)) => true
  | _ => false
  end.

(** The same environment with another verdict for the table write. *)
Definition with_putitem (b : bool) (env : Env) : Env :=
  mkEnv (fetch_response env) (getitem_ok env) b (publish_ok env).

(** The table write fails. *)
Definition envNoWrite (ls : list Listing) : Env :=
  mkEnv (Some (mkListings ls)) true false (λ _, true).

(** An environment with the four variables set, and one without the
    account identifier. *)
Definition getenv_complete : Getenv := λ k,
  if String.eqb k "AWS_REGION" then "ca-central-1"
  else if String.eqb k "AWS_ACCOUNT_ID" then "123456789012"
  else if String.eqb k "DYNAMO_TABLE_NAME" then "listings"
  else if String.eqb k "SNS_TOPIC_NAME" then "alerts"
  else "".

Definition getenv_no_account : Getenv := λ k,
  if String.eqb k "AWS_ACCOUNT_ID" then "" else getenv_complete k.

(** ** The shapes of a run *)

(** The five shapes a run can take: which one is decided by the fetch,
    the table read and the item found. *)
Inductive run_shape (env : Env) (w : World) : Run → Prop :=
| shape_fetch_failed :
    fetch_response env = None →
    run_shape env w (mkRun (Returned (Some FetchError)) w [])
| shape_nothing_fetched :
    fetch_response env = Some (mkListings []) →
    run_shape env w (mkRun Panicked w [CallFlush NilDeref])
| shape_read_failed l rest :
    fetch_response env = Some (mkListings (l :: rest)) →
    getitem_ok env = false →
    run_shape env w
      (mkRun Panicked w
         [CallSeen l (Return (false, Some GetItemError)); CallFlush NilDeref])
| shape_undecodable l rest partial :
    fetch_response env = Some (mkListings (l :: rest)) →
    getitem_ok env = true →
    table w = Undecodable partial →
    run_shape env w
      (if putitem_ok env
       then mkRun (Returned (Some UnmarshalError))
              (mkWorld (record (SeenIDs partial)) (topic w))
              [CallSeen l (Return (false, Some UnmarshalError));
               CallFlush (Return None)]
       else mkRun (Exited PutItemError) w
              [CallSeen l (Return (false, Some UnmarshalError));
               CallFlush (Return (Some PutItemError))])
| shape_loaded l rest ids delta r :
    fetch_response env = Some (mkListings (l :: rest)) →
    getitem_ok env = true →
    decodes (table w) = Some ids →
    (∀ l' e, CallMarkSeen l' e ∈ delta →
       e = None ∧ CallSeen l' (Return (false, None)) ∈ delta) →
    NoDup (ID <$> sends delta) →
    (∀ l', l' ∈ sends delta → (ID l' ∉ ids) ∧ l' ∈ l :: rest) →
    flushes delta = 0 →
    (r = None →
       sends delta = marks delta
       ∧ ∀ l', l' ∈ l :: rest → ID l' ∈ ids ++ (ID <$> marks delta)) →
    (∀ e, r = Some e →
       e = PublishError
       ∧ ∃ l', sends delta = marks delta ++ [l'] ∧ publish_ok env l' = false) →
    (∀ l', l' ∈ marks delta → publish_ok env l' = true) →
    run_shape env w
      (if putitem_ok env
       then mkRun (Returned r)
              (mkWorld (record (ids ++ (ID <$> marks delta)))
                       (topic w ++ (alertInput <$> marks delta)))
              (delta ++ [CallFlush (Return None)])
       else mkRun (Exited PutItemError)
              (mkWorld (table w) (topic w ++ (alertInput <$> marks delta)))
              (delta ++ [CallFlush (Return (Some PutItemError))])).

(** ** Tactics *)

(** Nothing is a member of the empty list. *)
Ltac no_elem :=
  match goal with H : _ ∈ [] |- _ => inversion H end.

(** * Basic facts *)

Lemma scan_true_iff id ids : scan id ids = true ↔ id ∈ ids.
Proof.
  induction ids as [|x ids IH]; simpl.
  - split; [discriminate | intros H; inversion H].
  - destruct (String.eqb_spec id x) as [->|Hne].
    + split; [intros _; left | done].
    + rewrite IH. split; [by right | ].
      intros H. apply elem_of_cons in H as [?|?]; [done | done].
Qed.

Lemma scan_false_iff id ids : scan id ids = false ↔ id ∉ ids.
Proof.
  rewrite <- scan_true_iff. destruct (scan id ids); split; congruence.
Qed.

Lemma scan_app id xs ys : scan id (xs ++ ys) = scan id xs || scan id ys.
Proof.
  induction xs as [|x xs IH]; simpl; [done|].
  destruct (String.eqb id x); [done | apply IH].
Qed.

Lemma sends_app a b : sends (a ++ b) = sends a ++ sends b.
Proof.
  induction a as [|c a IH]; simpl; [done|].
  destruct c; simpl; by rewrite ?IH.
Qed.

Lemma marks_app a b : marks (a ++ b) = marks a ++ marks b.
Proof.
  induction a as [|c a IH]; simpl; [done|].
  destruct c; simpl; by rewrite ?IH.
Qed.

(** ** The store, once loaded *)

Lemma Seen_loaded env w l d c :
  cache d = Some c →
  Seen env w l d = (d, Return (scan (ID l) (SeenIDs c), None)).
Proof. intros H. unfold Seen. by rewrite H; simpl; rewrite H. Qed.

Lemma MarkSeen_loaded l d c :
  cache d = Some c →
  MarkSeen l d =
    (mkDB (Some (mkListingCache (PartitionKey c) (SeenIDs c ++ [ID l]))), None).
Proof. intros H. unfold MarkSeen. by rewrite H. Qed.

(** A [Seen] that returns without error leaves the cache populated. *)
Lemma Seen_ok_loaded env w l d d' b :
  Seen env w l d = (d', Return (b, None)) → is_Some (cache d').
Proof.
  unfold Seen. destruct (cache d) as [c|] eqn:Hc.
  - simpl. rewrite Hc. intros [= <- _]. by rewrite Hc.
  - destruct (refreshCache env w d) as [d1 [e|]]; [discriminate|].
    destruct (cache d1) as [c1|] eqn:Hc1; [|discriminate].
    intros [= <- _]. by rewrite Hc1.
Qed.

Lemma MarkSeen_ok_iff l d : (MarkSeen l d).2 = None ↔ is_Some (cache d).
Proof.
  unfold MarkSeen. destruct (cache d); simpl; split; try done.
Qed.

(** Hence a [MarkSeen] on the store a [Seen] has just returned from
    without error cannot fail. *)
Lemma MarkSeen_after_Seen_ok env w l l' d d' b :
  Seen env w l d = (d', Return (b, None)) → (MarkSeen l' d').2 = None.
Proof. intros HS. apply MarkSeen_ok_iff. by eapply Seen_ok_loaded. Qed.

(** * The loop *)

Section Loop.
Context (env : Env).

(** One iteration, by the three ways it can go once the cache is
    populated. *)
Lemma process_seen l rest st c :
  cache (db st) = Some c → ID l ∈ SeenIDs c →
  process env (l :: rest) st =
    process env rest
      (mkState (db st) (world st) (calls st ++ [CallSeen l (Return (true, None))])).
Proof.
  intros Hc Hin. simpl. rewrite (Seen_loaded _ _ _ _ _ Hc).
  apply scan_true_iff in Hin. by rewrite Hin.
Qed.

Lemma process_accepted l rest st c :
  cache (db st) = Some c → ID l ∉ SeenIDs c → publish_ok env l = true →
  process env (l :: rest) st =
    process env rest
      (mkState
         (mkDB (Some (mkListingCache (PartitionKey c) (SeenIDs c ++ [ID l]))))
         (mkWorld (table (world st)) (topic (world st) ++ [alertInput l]))
         (calls st ++ [CallSeen l (Return (false, None)); CallSend l None;
                       CallMarkSeen l None])).
Proof.
  intros Hc Hin Hok. simpl. rewrite (Seen_loaded _ _ _ _ _ Hc).
  apply scan_false_iff in Hin. rewrite Hin.
  unfold SendListingAlert. rewrite Hok.
  rewrite (MarkSeen_loaded _ _ _ Hc). by rewrite <- !app_assoc.
Qed.

Lemma process_rejected l rest st c :
  cache (db st) = Some c → ID l ∉ SeenIDs c → publish_ok env l = false →
  process env (l :: rest) st =
    (mkState (db st) (world st)
       (calls st ++ [CallSeen l (Return (false, None));
                     CallSend l (Some PublishError)]),
     Return (Some PublishError)).
Proof.
  intros Hc Hin Hok. simpl. rewrite (Seen_loaded _ _ _ _ _ Hc).
  apply scan_false_iff in Hin. rewrite Hin.
  unfold SendListingAlert. rewrite Hok. by rewrite <- !app_assoc.
Qed.

(** The first iteration performs the lazy load. *)
Lemma process_load l rest st ids :
  cache (db st) = None → getitem_ok env = true →
  decodes (table (world st)) = Some ids →
  ∃ pk, process env (l :: rest) st =
          process env (l :: rest)
            (mkState (mkDB (Some (mkListingCache pk ids))) (world st) (calls st)).
Proof.
  intros Hc Hget Hdec.
  destruct st as [[ca] [t tp] lg]; simpl in *; subst ca.
  destruct t as [|[pk ids']|p]; simpl in Hdec; try discriminate;
    injection Hdec as <-.
  - exists "". unfold Seen, refreshCache. simpl. by rewrite Hget.
  - exists pk. unfold Seen, refreshCache. simpl. by rewrite Hget.
Qed.

Lemma process_read_fails l rest st :
  cache (db st) = None → getitem_ok env = false →
  process env (l :: rest) st =
    (mkState (db st) (world st)
       (calls st ++ [CallSeen l (Return (false, Some GetItemError))]),
     Return (Some GetItemError)).
Proof.
  intros Hc Hget. simpl. unfold Seen, refreshCache. by rewrite Hc, Hget.
Qed.

Lemma process_undecodable l rest st partial :
  cache (db st) = None → getitem_ok env = true →
  table (world st) = Undecodable partial →
  process env (l :: rest) st =
    (mkState (mkDB (Some partial)) (world st)
       (calls st ++ [CallSeen l (Return (false, Some UnmarshalError))]),
     Return (Some UnmarshalError)).
Proof.
  intros Hc Hget Ht. simpl. unfold Seen, refreshCache. by rewrite Hc, Hget, Ht.
Qed.

(** When every fetched identifier is already in the cache the loop only
    queries. *)
Lemma process_all_seen ls : ∀ st c,
  cache (db st) = Some c →
  (∀ l, l ∈ ls → ID l ∈ SeenIDs c) →
  process env ls st =
    (mkState (db st) (world st)
       (calls st ++ ((λ l, CallSeen l (Return (true, None))) <$> ls)),
     Return None).
Proof.
  induction ls as [|l ls IH]; intros st c Hc Hall.
  - simpl. rewrite app_nil_r. by destruct st.
  - rewrite (process_seen _ _ _ c) by (try done; apply Hall; left).
    rewrite (IH _ c); simpl; [| done | intros; apply Hall; by right].
    by rewrite <- app_assoc.
Qed.

(** What the loop does to a populated store, in one invariant: [delta]
    is what it appends to the call log. *)
Lemma process_loaded ls : ∀ st c,
  cache (db st) = Some c →
  ∃ delta r,
    process env ls st =
      (mkState
         (mkDB (Some (mkListingCache (PartitionKey c)
                        (SeenIDs c ++ (ID <$> marks delta)))))
         (mkWorld (table (world st))
                  (topic (world st) ++ (alertInput <$> marks delta)))
         (calls st ++ delta),
       Return r)
    ∧ (∀ l e, CallMarkSeen l e ∈ delta →
         e = None ∧ CallSeen l (Return (false, None)) ∈ delta)
    ∧ NoDup (ID <$> sends delta)
    ∧ (∀ l, l ∈ sends delta → (ID l ∉ SeenIDs c) ∧ l ∈ ls)
    ∧ flushes delta = 0
    ∧ (r = None →
         sends delta = marks delta
         ∧ ∀ l, l ∈ ls → ID l ∈ SeenIDs c ++ (ID <$> marks delta))
    ∧ (∀ e, r = Some e →
         e = PublishError
         ∧ ∃ l, sends delta = marks delta ++ [l] ∧ publish_ok env l = false)
    ∧ (∀ l, l ∈ marks delta → publish_ok env l = true).
Proof.
  induction ls as [|l ls IH]; intros st c Hc.
  - exists [], None. simpl. rewrite !app_nil_r.
    destruct st as [[ca] [t tp] lg], c as [pk ids]; simpl in *; subst.
    split_and!; try done; try (by intros; no_elem).
    + constructor.
    + intros _; split; [done|]. by intros; no_elem.
  - destruct (scan (ID l) (SeenIDs c)) eqn:Hscan.
    + apply scan_true_iff in Hscan.
      rewrite (process_seen _ _ _ c Hc Hscan).
      destruct (IH (mkState (db st) (world st)
                      (calls st ++ [CallSeen l (Return (true, None))])) c Hc)
        as (delta & r & Heq & Hm & Hnd & Hs & Hf & Hok & Her & Hacc).
      exists (CallSeen l (Return (true, None)) :: delta), r.
      simpl in *. rewrite Heq, <- app_assoc. simpl.
      split_and!; try done.
      * intros l' e Hel. apply elem_of_cons in Hel as [?|Hel]; [done|].
        destruct (Hm l' e Hel). split; [done | by right].
      * intros l' Hel. destruct (Hs l' Hel). split; [done | by right].
      * intros Hr. destruct (Hok Hr) as [? Hall]. split; [done|].
        intros l' Hel. apply elem_of_cons in Hel as [->|?]; [|eauto].
        apply elem_of_app; by left.
    + apply scan_false_iff in Hscan.
      destruct (publish_ok env l) eqn:Hpub.
      * rewrite (process_accepted _ _ _ c Hc Hscan Hpub).
        set (st1 := mkState _ _ _).
        destruct (IH st1 (mkListingCache (PartitionKey c) (SeenIDs c ++ [ID l]))
                    eq_refl)
          as (delta & r & Heq & Hm & Hnd & Hs & Hf & Hok & Her & Hacc).
        exists ([CallSeen l (Return (false, None)); CallSend l None;
                 CallMarkSeen l None] ++ delta), r.
        subst st1. simpl in *. rewrite Heq, <- !app_assoc. simpl.
        split_and!; try done.
        -- intros l' e Hel.
           apply elem_of_cons in Hel as [?|Hel]; [done|].
           apply elem_of_cons in Hel as [?|Hel]; [done|].
           apply elem_of_cons in Hel as [?|Hel];
             [simplify_eq; split; [done | by left]|].
           destruct (Hm l' e Hel). split; [done | by do 3 right].
        -- constructor; [|done]. intros Hin.
           apply list_elem_of_fmap in Hin as (l' & Heq' & Hl').
           destruct (Hs l' Hl') as [Hnot _]. apply Hnot.
           apply elem_of_app; right. rewrite Heq'. by left.
        -- intros l' Hel. apply elem_of_cons in Hel as [->|Hel]; [split; [done | by left]|].
           destruct (Hs l' Hel) as [Hnot ?]. split; [|by right].
           intros ?. apply Hnot. apply elem_of_app; by left.
        -- intros Hr. destruct (Hok Hr) as [-> Hall]. split; [done|].
           intros l' Hel. apply elem_of_cons in Hel as [->|Hel].
           ++ apply elem_of_app; right. by left.
           ++ specialize (Hall l' Hel). by rewrite <- app_assoc in Hall.
        -- intros e Hr. destruct (Her e Hr) as (-> & l' & -> & ?).
           split; [done|]. by exists l'.
        -- intros l' Hel. apply elem_of_cons in Hel as [->|Hel]; [done | eauto].
      * rewrite (process_rejected _ _ _ c Hc Hscan Hpub).
        exists [CallSeen l (Return (false, None)); CallSend l (Some PublishError)],
               (Some PublishError).
        simpl. rewrite !app_nil_r.
        destruct st as [[ca] [t tp] lg], c as [pk ids]; simpl in *; subst.
        split_and!; try done.
        -- intros l' e Hel.
           repeat (apply elem_of_cons in Hel as [Hel|Hel]; [by simplify_eq|]).
           inversion Hel.
        -- apply NoDup_singleton.
        -- intros l' Hel. apply list_elem_of_singleton in Hel as ->.
           split; [done | by left].
        -- intros e [= <-]. split; [done|]. by exists l.
        -- by intros; no_elem.
Qed.

End Loop.

(** * The run *)

Lemma HandleRequest_fetched env w ls :
  fetch_response env = Some (mkListings ls) →
  HandleRequest env w =
    let '(st, r) := process env ls (mkState NewDB w []) in deferred env st r.
Proof. intros Hf. unfold HandleRequest, fetchListings. by rewrite Hf. Qed.

Lemma HandleRequest_shape env w : run_shape env w (HandleRequest env w).
Proof.
  destruct (fetch_response env) as [[ls]|] eqn:Hf.
  2:{ unfold HandleRequest, fetchListings. rewrite Hf. by constructor. }
  rewrite (HandleRequest_fetched _ _ _ Hf).
  destruct ls as [|l rest].
  { simpl. by constructor. }
  destruct (getitem_ok env) eqn:Hget.
  2:{ rewrite process_read_fails by done. simpl.
      destruct w; by apply shape_read_failed with rest. }
  destruct (decodes (table w)) as [ids|] eqn:Hdec.
  - destruct (process_load env l rest (mkState NewDB w []) ids eq_refl Hget Hdec)
      as [pk Hload].
    cbn [world calls] in Hload. rewrite Hload.
    destruct (process_loaded env (l :: rest)
                (mkState (mkDB (Some (mkListingCache pk ids))) w [])
                (mkListingCache pk ids) eq_refl)
      as (delta & r & Heq & Hm & Hnd & Hs & Hfl & Hok & Her & Hacc).
    rewrite Heq.
    pose proof (shape_loaded env w l rest ids delta r Hf Hget Hdec
                  Hm Hnd Hs Hfl Hok Her Hacc) as Hshape.
    unfold deferred, Flush. simpl in *.
    by destruct (putitem_ok env).
  - destruct (table w) as [| |partial] eqn:Ht; try discriminate.
    rewrite (process_undecodable _ _ _ _ partial) by done.
    pose proof (shape_undecodable env w l rest partial Hf Hget Ht) as Hshape.
    unfold deferred, Flush. simpl in *.
    by destruct (putitem_ok env).
Qed.

(** The loop over a concatenation: the second part runs from the state
    the first part left, if the first part ran to its end. *)
Lemma process_app env xs : ∀ ys st,
  process env (xs ++ ys) st =
    let '(st1, r1) := process env xs st in
    match r1 with
    | Return None => process env ys st1
    | _ => (st1, r1)
    end.
Proof.
  induction xs as [|x xs IH]; intros ys st; simpl; [done|].
  destruct (Seen env (world st) x (db st)) as [d1 [[[] [e|]]|]]; try done.
  destruct (SendListingAlert env (world st) x) as [w2 [e|]]; [done|].
  destruct (MarkSeen x d1) as [d3 m]. apply IH.
Qed.

(** The lazy load of the first iteration, for any non-empty fetch. *)
Lemma process_load_nonempty env ls st ids :
  ls ≠ [] → cache (db st) = None → getitem_ok env = true →
  decodes (table (world st)) = Some ids →
  ∃ pk, process env ls st =
          process env ls
            (mkState (mkDB (Some (mkListingCache pk ids))) (world st) (calls st)).
Proof.
  intros Hne Hc Hget Hdec. destruct ls as [|l rest]; [done|].
  by apply process_load.
Qed.

(** * Notification failure (C1) *)

(** C1, as stated, fails: over the three unseen listings A, B, C with the
    send for B rejected, the run returns the publish error and flushes,
    but the record written adds A only: B, whose send failed, is not in
    it. *)
Lemma C1_rejected_listing_is_not_marked :
  outcome run_second_rejected = Returned (Some PublishError)
  ∧ sends (trace run_second_rejected) = [lA; lB]
  ∧ marks (trace run_second_rejected) = [lA]
  ∧ table (final run_second_rejected) = record ["Z"; ID lA]
  ∧ ¬ (ID lB ∈ ["Z"; ID lA]).
Proof.
  split_and!; try reflexivity. compute_done.
Qed.

(** C1, amended. First, for a fetch of any length and a rejection at any
    position: when the sends for the earlier unseen listings are accepted
    and the send for a listing [l], unseen when the loop reaches it, is
    rejected, the run returns the publish error; the rejected send is the
    last call before the deferred flush, so nothing after [l] is processed;
    [MarkSeen] is not called for [l]; and the flush writes the working set
    accumulated so far, which holds the identifier of every earlier
    listing and not the one of [l], nor of any later listing that is new.
    Second, concretely: over three unseen listings with distinct
    identifiers and the second send rejected, the durable record contains
    the first identifier and excludes the second and the third. *)
Theorem C1_rejected_send_flushes_earlier_marks :
  (∀ env w pre l post prior,
     fetch_response env = Some (mkListings (pre ++ l :: post)) →
     getitem_ok env = true → putitem_ok env = true →
     decodes (table w) = Some prior →
     (∀ x, x ∈ pre → ID x ∉ prior → publish_ok env x = true) →
     ID l ∉ prior → ID l ∉ ID <$> pre →
     publish_ok env l = false →
     outcome (HandleRequest env w) = Returned (Some PublishError)
     ∧ (∃ log, trace (HandleRequest env w) =
                 log ++ [CallSeen l (Return (false, None));
                         CallSend l (Some PublishError);
                         CallFlush (Return None)])
     ∧ sends (trace (HandleRequest env w))
       = marks (trace (HandleRequest env w)) ++ [l]
     ∧ (∀ m, m ∈ marks (trace (HandleRequest env w)) → m ∈ pre)
     ∧ final (HandleRequest env w) =
         mkWorld (record (prior ++ (ID <$> marks (trace (HandleRequest env w)))))
                 (topic w ++ (alertInput <$> marks (trace (HandleRequest env w))))
     ∧ (∀ x, x ∈ pre →
          ID x ∈ prior ++ (ID <$> marks (trace (HandleRequest env w))))
     ∧ (ID l ∉ prior ++ (ID <$> marks (trace (HandleRequest env w))))
     ∧ (∀ x, x ∈ post → ID x ∉ prior → ID x ∉ ID <$> pre →
          ID x ∉ prior ++ (ID <$> marks (trace (HandleRequest env w)))))
  ∧ (∀ env w l1 l2 l3 prior,
       fetch_response env = Some (mkListings [l1; l2; l3]) →
       getitem_ok env = true → putitem_ok env = true →
       decodes (table w) = Some prior →
       ID l1 ∉ prior → ID l2 ∉ prior → ID l3 ∉ prior →
       ID l1 ≠ ID l2 → ID l1 ≠ ID l3 →
       publish_ok env l1 = true → publish_ok env l2 = false →
       outcome (HandleRequest env w) = Returned (Some PublishError)
       ∧ trace (HandleRequest env w) =
           [CallSeen l1 (Return (false, None)); CallSend l1 None;
            CallMarkSeen l1 None;
            CallSeen l2 (Return (false, None)); CallSend l2 (Some PublishError);
            CallFlush (Return None)]
       ∧ final (HandleRequest env w) =
           mkWorld (record (prior ++ [ID l1])) (topic w ++ [alertInput l1])
       ∧ ID l1 ∈ prior ++ [ID l1]
       ∧ (ID l2 ∉ prior ++ [ID l1])
       ∧ (ID l3 ∉ prior ++ [ID l1])).
Proof.
  split.
  - (* any length, any position *)
    intros env w pre l post prior Hf Hget Hput Hdec Hacc_pre Hl Hlpre Hrej.
    rewrite (HandleRequest_fetched _ _ _ Hf).
    destruct (process_load_nonempty env (pre ++ l :: post) (mkState NewDB w [])
                prior) as [pk Hload]; try done.
    { by destruct pre. }
    cbn [world calls] in Hload. rewrite Hload, process_app.
    destruct (process_loaded env pre
                (mkState (mkDB (Some (mkListingCache pk prior))) w [])
                (mkListingCache pk prior) eq_refl)
      as (delta & r & Heq & Hm & Hnd & Hs & Hfl & Hok & Her & Hacc).
    cbn [PartitionKey SeenIDs world calls table topic] in *.
    rewrite Heq.
    assert (r = None) as ->.
    { destruct r as [e|]; [exfalso|done].
      destruct (Her e eq_refl) as (_ & l' & Hsd & Hrej').
      destruct (Hs l') as [Hnot Hin].
      { rewrite Hsd. apply elem_of_app; right; by left. }
      rewrite (Hacc_pre l' Hin Hnot) in Hrej'. discriminate. }
    destruct (Hok eq_refl) as [Hsm Hall].
    assert (Hmarks_pre : ∀ m, m ∈ marks delta → m ∈ pre).
    { intros m Hin. rewrite <- Hsm in Hin. by destruct (Hs m Hin). }
    assert (Hnew : ∀ x, ID x ∉ prior → ID x ∉ ID <$> pre →
                        ID x ∉ prior ++ (ID <$> marks delta)).
    { intros x Hx Hxpre Hin. apply elem_of_app in Hin as [?|Hin]; [done|].
      apply list_elem_of_fmap in Hin as (m & Heqm & Hmin).
      apply Hxpre. rewrite Heqm. apply list_elem_of_fmap_2. by apply Hmarks_pre. }
    rewrite (process_rejected env l post _
               (mkListingCache pk (prior ++ (ID <$> marks delta))))
      by (try done; by apply Hnew).
    unfold deferred, Flush. cbn [db world calls cache SeenIDs topic table].
    rewrite Hput. cbn [outcome trace final].
    rewrite !sends_app, !marks_app. cbn [sends marks app].
    rewrite !app_nil_r, Hsm.
    split_and!; try done.
    + exists delta. by rewrite <- app_assoc.
    + by apply Hnew.
    + intros x _. apply Hnew.
  - (* three listings, the second rejected *)
    intros env w l1 l2 l3 prior Hf Hget Hput Hdec H1 H2 H3 H12 H13 Hp1 Hp2.
    assert (Hn2 : ID l2 ∉ prior ++ [ID l1]).
    { intros Hin. apply elem_of_app in Hin as [?|Hin]; [done|].
      apply list_elem_of_singleton in Hin. by apply H12. }
    assert (Hn3 : ID l3 ∉ prior ++ [ID l1]).
    { intros Hin. apply elem_of_app in Hin as [?|Hin]; [done|].
      apply list_elem_of_singleton in Hin. by apply H13. }
    rewrite (HandleRequest_fetched _ _ _ Hf).
    destruct (process_load env l1 [l2; l3] (mkState NewDB w []) prior eq_refl
                Hget Hdec) as [pk Hload].
    cbn [world calls] in Hload. rewrite Hload.
    rewrite (process_accepted env l1 _ _ (mkListingCache pk prior)) by done.
    rewrite (process_rejected env l2 _ _ (mkListingCache pk (prior ++ [ID l1])))
      by done.
    unfold deferred, Flush. simpl. rewrite Hput. simpl.
    split_and!; try done.
    apply elem_of_app; right; by left.
Qed.

Lemma C1_rejected_send_witness :
  table (final run_second_rejected) = record ["Z"; "A"]
  ∧ outcome run_second_rejected = Returned (Some PublishError)
  ∧ sends (trace run_second_rejected) = marks (trace run_second_rejected) ++ [lB].
Proof.
  destruct (proj1 C1_rejected_send_flushes_earlier_marks
              (envRejecting "B" [lA; lB; lC]) (mkWorld (record ["Z"]) [])
              [lA] lB [lC] ["Z"])
    as (Hout & _ & Hsends & _ & Hfin & _);
    [reflexivity | reflexivity | reflexivity | reflexivity
    | intros x Hx _; apply list_elem_of_singleton in Hx as ->; reflexivity
    | compute_done | compute_done | reflexivity | ].
  unfold run_second_rejected. rewrite Hfin, Hout, Hsends. split_and!; reflexivity.
Defined.

(** * Fetch and load failures (C2) *)

(** C2, as stated, fails: when the table read of the first [Seen] fails,
    the loop returns the error and the deferred closure then calls
    [Flush]; the flush is attempted, once. *)
Lemma C2_flush_is_attempted_after_read_failure :
  trace run_read_fails =
    [CallSeen lA (Return (false, Some GetItemError)); CallFlush NilDeref]
  ∧ ¬ (flushes (trace run_read_fails) = 0).
Proof. split; [reflexivity | discriminate]. Qed.

(** C2, amended: a fetch error ends the run before the store exists, so
    no notification is sent, [Flush] is not called and the world is
    untouched. A failed table read ends the loop at once: no notification
    is sent, no write reaches the table and the world is exactly what it
    was; the deferred [Flush] is still called, once. *)
Theorem C2_fetch_or_read_failure_leaves_world env w :
  fetch_response env = None ∨ getitem_ok env = false →
  sends (trace (HandleRequest env w)) = []
  ∧ writes (trace (HandleRequest env w)) = 0
  ∧ final (HandleRequest env w) = w
  ∧ flushes (trace (HandleRequest env w)) =
      match fetch_response env with Some _ => 1 | None => 0 end.
Proof.
  intros Hfail.
  destruct (HandleRequest_shape env w)
    as [Hf|Hf|l0 rest Hf Hget|l0 rest partial Hf Hget Ht
       |l0 rest ids delta r Hf Hget Hdec Hm Hnd Hs Hfl Hok Her Hacc];
    try (rewrite Hf; by simpl);
    destruct Hfail; congruence.
Qed.

Lemma C2_read_failure_witness :
  final run_read_fails = mkWorld (record ["Z"]) []
  ∧ sends (trace run_read_fails) = [].
Proof.
  destruct (C2_fetch_or_read_failure_leaves_world
              (envNoRead [lA]) (mkWorld (record ["Z"]) []))
    as (Hs & _ & Hfin & _); [right; reflexivity|].
  unfold run_read_fails. by rewrite Hs, Hfin.
Defined.

(** The other load failure: a record that does not decode. The decoder
    had already populated the cache, so the deferred flush does write, and
    the record is replaced by what had been decoded. *)
Lemma undecodable_record_is_overwritten env w l rest partial :
  fetch_response env = Some (mkListings (l :: rest)) →
  getitem_ok env = true → putitem_ok env = true →
  table w = Undecodable partial →
  HandleRequest env w =
    mkRun (Returned (Some UnmarshalError))
      (mkWorld (record (SeenIDs partial)) (topic w))
      [CallSeen l (Return (false, Some UnmarshalError)); CallFlush (Return None)].
Proof.
  intros Hf Hget Hput Ht. rewrite (HandleRequest_fetched _ _ _ Hf).
  rewrite (process_undecodable _ _ _ _ partial) by done.
  unfold deferred, Flush. simpl. by rewrite Hput.
Qed.

(** * The concrete scenario (C3) *)

(** C3: with a stored seen-set denoting {A} and the fetch returning
    [A, B, C] (distinct identifiers), the run sends for B and then for C,
    never for A, and the record written denotes {A, B, C}. *)
Theorem C3_prior_A_fetch_ABC env w a b c pk prior :
  table w = Stored (mkListingCache pk prior) →
  list_to_set prior =@{gset string} {[ID a]} →
  ID a ≠ ID b → ID a ≠ ID c → ID b ≠ ID c →
  fetch_response env = Some (mkListings [a; b; c]) →
  getitem_ok env = true → putitem_ok env = true →
  publish_ok env b = true → publish_ok env c = true →
  outcome (HandleRequest env w) = Returned None
  ∧ sends (trace (HandleRequest env w)) = [b; c]
  ∧ topic (final (HandleRequest env w)) = topic w ++ [alertInput b; alertInput c]
  ∧ ∃ c', table (final (HandleRequest env w)) = Stored c'
          ∧ seen_set c' = {[ID a; ID b; ID c]}.
Proof.
  intros Ht Hprior Hab Hac Hbc Hf Hget Hput Hpb Hpc.
  assert (Hin : ∀ x, x ∈ prior ↔ x = ID a).
  { intros x. rewrite <- (elem_of_list_to_set (C:=gset string)), Hprior.
    apply elem_of_singleton. }
  rewrite (HandleRequest_fetched _ _ _ Hf).
  destruct (process_load env a [b; c] (mkState NewDB w []) prior eq_refl Hget)
    as [pk' Hload]; [simpl; by rewrite Ht|].
  cbn [world calls] in Hload. rewrite Hload.
  rewrite (process_seen env a _ _ (mkListingCache pk' prior))
    by (try done; by apply Hin).
  rewrite (process_accepted env b _ _ (mkListingCache pk' prior));
    [| done | simpl; rewrite Hin; congruence | done].
  rewrite (process_accepted env c _ _ (mkListingCache pk' (prior ++ [ID b])));
    [| done | | done].
  2:{ simpl. rewrite elem_of_app, Hin, list_elem_of_singleton. intros [?|?]; congruence. }
  unfold deferred, Flush. simpl. rewrite Hput. simpl.
  split_and!; try done.
  - by rewrite <- app_assoc.
  - eexists; split; [done|]. unfold seen_set; simpl.
    rewrite <- app_assoc, list_to_set_app_L, Hprior. simpl.
    by rewrite (right_id_L ∅ (∪)), (assoc_L (∪)).
Qed.

Lemma C3_witness :
  sends (trace (HandleRequest (envOK [lA; lB; lC]) (mkWorld (record ["A"]) [])))
  = [lB; lC].
Proof.
  apply (C3_prior_A_fetch_ABC (envOK [lA; lB; lC]) (mkWorld (record ["A"]) [])
           lA lB lC dynamoPartitionKeyValue ["A"]);
    try reflexivity; compute_done.
Defined.

(** * The flush on an empty fetch (C6) *)

(** C6 does not hold of the code: when the fetch returns no listing,
    [Seen] is never called, the cache pointer is still nil when the
    deferred closure runs, and [Flush] dereferences it. No write is
    issued, whatever the table would have answered. *)
Theorem C6_flush_faults_on_empty_fetch g p pub w :
  HandleRequest (mkEnv (Some (mkListings [])) g p pub) w
  = mkRun Panicked w [CallFlush NilDeref].
Proof. reflexivity. Qed.

Lemma flushes_pos f log : CallFlush f ∈ log → 0 < flushes log.
Proof.
  induction log as [|c log IH]; intros Hin; [no_elem|].
  apply elem_of_cons in Hin as [<-|Hin]; simpl; [lia|].
  destruct c; simpl; auto with lia.
Qed.

(** The extent of the fault: the deferred flush dereferences nil exactly
    when the fetch succeeded and the cache was never loaded, that is when
    nothing was fetched or the table read failed. *)
Lemma flush_faults_iff env w :
  CallFlush NilDeref ∈ trace (HandleRequest env w)
  ↔ ∃ ls, fetch_response env = Some (mkListings ls)
          ∧ (ls = [] ∨ getitem_ok env = false).
Proof.
  destruct (HandleRequest_shape env w)
    as [Hf|Hf|l0 rest Hf Hget|l0 rest partial Hf Hget Ht
       |l0 rest ids delta r Hf Hget Hdec Hm Hnd Hs Hfl Hok Her Hacc].
  - simpl. split; [intros; no_elem | intros (ls & ? & _); congruence].
  - split; [intros _; exists []; by split; [|left] | intros _; by left].
  - split; [intros _; eexists; by split; [|right] | intros _; right; by left].
  - split.
    + intros Hin. destruct (putitem_ok env); simpl in Hin;
        repeat (apply elem_of_cons in Hin as [Hin|Hin]; [discriminate|]); no_elem.
    + intros (ls & Hls & [-> | ?]); congruence.
  - split.
    + intros Hin. exfalso.
      assert (Hd : CallFlush NilDeref ∈ delta).
      { destruct (putitem_ok env); simpl in Hin;
          apply elem_of_app in Hin as [Hin|Hin]; try done;
          apply list_elem_of_singleton in Hin; discriminate. }
      apply flushes_pos in Hd. lia.
    + intros (ls & Hls & [-> | ?]); congruence.
Qed.

(** * The discarded result of MarkSeen (C9) *)

(** C9: in every run, each [MarkSeen] the coordinator calls returns no
    error, and it follows a [Seen] on the same listing that returned
    (false, nil): the result the coordinator discards is never an error. *)
Theorem C9_discarded_MarkSeen_error_unreachable env w l e :
  CallMarkSeen l e ∈ trace (HandleRequest env w) →
  e = None ∧ CallSeen l (Return (false, None)) ∈ trace (HandleRequest env w).
Proof.
  destruct (HandleRequest_shape env w)
    as [Hf|Hf|l0 rest Hf Hget|l0 rest partial Hf Hget Ht
       |l0 rest ids delta r Hf Hget Hdec Hm Hnd Hs Hfl Hok Her Hacc];
    intros Hin.
  - simpl in Hin. no_elem.
  - repeat (apply elem_of_cons in Hin as [Hin|Hin]; [discriminate|]). no_elem.
  - repeat (apply elem_of_cons in Hin as [Hin|Hin]; [discriminate|]). no_elem.
  - destruct (putitem_ok env); simpl in *;
      repeat (apply elem_of_cons in Hin as [Hin|Hin]; [discriminate|]); no_elem.
  - assert (Hd : CallMarkSeen l e ∈ delta).
    { destruct (putitem_ok env); simpl in Hin;
        apply elem_of_app in Hin as [Hin|Hin]; try done;
        apply list_elem_of_singleton in Hin; discriminate. }
    destruct (Hm l e Hd) as [-> Hseen]. split; [done|].
    destruct (putitem_ok env); simpl; apply elem_of_app; by left.
Qed.

Lemma C9_witness :
  CallSeen lB (Return (false, None))
    ∈ trace (HandleRequest (envOK [lA; lB; lC]) (mkWorld (record ["A"]) [])).
Proof.
  apply (C9_discarded_MarkSeen_error_unreachable
           (envOK [lA; lB; lC]) (mkWorld (record ["A"]) []) lB None).
  vm_compute. repeat constructor.
Defined.

(** * Duplicates within a run (C5) *)

(** A loop that ran to its end over a non-empty sequence has every
    fetched identifier in its cache. *)
Lemma process_done_all_seen env ls st st1 :
  process env ls st = (st1, Return None) → ls ≠ [] →
  ∃ c1, cache (db st1) = Some c1 ∧ ∀ l, l ∈ ls → ID l ∈ SeenIDs c1.
Proof.
  intros Hrun Hne.
  assert (Hloaded : ∀ st0 c, cache (db st0) = Some c →
            process env ls st0 = (st1, Return None) →
            ∃ c1, cache (db st1) = Some c1 ∧ ∀ l, l ∈ ls → ID l ∈ SeenIDs c1).
  { intros st0 c Hc Hrun0.
    destruct (process_loaded env ls st0 c Hc)
      as (delta & r & Heq & _ & _ & _ & _ & Hok & _).
    rewrite Heq in Hrun0. injection Hrun0 as <- ->.
    eexists; split; [done|]. simpl. by apply Hok. }
  destruct (cache (db st)) as [c|] eqn:Hc; [by eapply Hloaded|].
  destruct ls as [|l rest]; [done|].
  destruct (getitem_ok env) eqn:Hget.
  2:{ rewrite process_read_fails in Hrun by done. discriminate. }
  destruct (decodes (table (world st))) as [ids|] eqn:Hdec.
  - destruct (process_load env l rest st ids Hc Hget Hdec) as [pk Hload].
    rewrite Hload in Hrun. eapply Hloaded; [|exact Hrun]. reflexivity.
  - destruct (table (world st)) as [| |partial] eqn:Ht; try discriminate.
    rewrite (process_undecodable _ _ _ _ partial) in Hrun by done. discriminate.
Qed.

Lemma HandleRequest_sends_NoDup env w :
  NoDup (ID <$> sends (trace (HandleRequest env w))).
Proof.
  destruct (HandleRequest_shape env w)
    as [Hf|Hf|l0 rest Hf Hget|l0 rest partial Hf Hget Ht
       |l0 rest ids delta r Hf Hget Hdec Hm Hnd Hs Hfl Hok Her Hacc];
    try (destruct (putitem_ok env)); simpl; try constructor;
    by rewrite sends_app, app_nil_r.
Qed.

(** C5: when an identifier occurs twice in the fetched sequence, no two
    sends of the run carry the same identifier, and once the loop has
    passed the first occurrence, [Seen] answers true at the second, which
    is skipped: the loop goes on with the cache and the topic as they
    were. *)
Theorem C5_second_occurrence_is_skipped env w ls1 l1 l2 ls2 :
  fetch_response env = Some (mkListings (ls1 ++ l2 :: ls2)) →
  l1 ∈ ls1 → ID l1 = ID l2 →
  NoDup (ID <$> sends (trace (HandleRequest env w)))
  ∧ ∀ st1, process env ls1 (mkState NewDB w []) = (st1, Return None) →
      Seen env (world st1) l2 (db st1) = (db st1, Return (true, None))
      ∧ process env (ls1 ++ l2 :: ls2) (mkState NewDB w []) =
          process env ls2
            (mkState (db st1) (world st1)
               (calls st1 ++ [CallSeen l2 (Return (true, None))])).
Proof.
  intros Hf Hin Hid. split; [apply HandleRequest_sends_NoDup|].
  intros st1 Hrun.
  destruct (process_done_all_seen env ls1 _ st1 Hrun) as (c1 & Hc1 & Hall).
  { intros ->. no_elem. }
  assert (Hseen : ID l2 ∈ SeenIDs c1) by (rewrite <- Hid; by apply Hall).
  split.
  - rewrite (Seen_loaded _ _ _ _ _ Hc1).
    apply scan_true_iff in Hseen. by rewrite Hseen.
  - rewrite process_app, Hrun. by apply process_seen with c1.
Qed.

Lemma C5_witness :
  NoDup (ID <$> sends (trace (HandleRequest (envOK [lA; lB; lA]) (mkWorld Absent []))))
  ∧ ∀ st1,
      process (envOK [lA; lB; lA]) [lA; lB] (mkState NewDB (mkWorld Absent []) [])
        = (st1, Return None) →
      Seen (envOK [lA; lB; lA]) (world st1) lA (db st1)
        = (db st1, Return (true, None))
      ∧ process (envOK [lA; lB; lA]) ([lA; lB] ++ [lA])
          (mkState NewDB (mkWorld Absent []) []) =
        process (envOK [lA; lB; lA]) []
          (mkState (db st1) (world st1)
             (calls st1 ++ [CallSeen lA (Return (true, None))])).
Proof.
  apply (C5_second_occurrence_is_skipped
           (envOK [lA; lB; lA]) (mkWorld Absent []) [lA; lB] lA lA []);
    [reflexivity | by left | reflexivity].
Defined.

(** On the fetch [A, B, A]: A is sent once, although fetched twice. *)
Example duplicate_in_fetch_sent_once :
  sends (trace (HandleRequest (envOK [lA; lB; lA]) (mkWorld Absent []))) = [lA; lB].
Proof. reflexivity. Qed.

(** * Running twice (C4) *)

(** C4: from an empty prior seen-set, a run that returns nil (or that
    fetched nothing) has sent exactly once for each distinct fetched
    identifier and leaves those identifiers as the durable seen-set; a
    second run over the same sequence, whatever its external calls answer,
    sends nothing and leaves the record as the first run left it. *)
Theorem C4_second_run_sends_nothing env1 env2 w ls :
  decodes (table w) = Some [] →
  fetch_response env1 = Some (mkListings ls) →
  fetch_response env2 = Some (mkListings ls) →
  outcome (HandleRequest env1 w) = Returned None ∨ ls = [] →
  (NoDup (ID <$> sends (trace (HandleRequest env1 w)))
   ∧ (∀ id, id ∈ ID <$> sends (trace (HandleRequest env1 w)) ↔ id ∈ ID <$> ls)
   ∧ topic (final (HandleRequest env1 w)) =
       topic w ++ (alertInput <$> sends (trace (HandleRequest env1 w)))
   ∧ decodes (table (final (HandleRequest env1 w))) =
       Some (ID <$> sends (trace (HandleRequest env1 w))))
  ∧ (sends (trace (HandleRequest env2 (final (HandleRequest env1 w)))) = []
     ∧ topic (final (HandleRequest env2 (final (HandleRequest env1 w)))) =
         topic (final (HandleRequest env1 w))
     ∧ table (final (HandleRequest env2 (final (HandleRequest env1 w)))) =
         table (final (HandleRequest env1 w))).
Proof.
  intros Hempty Hf1 Hf2 Hsucc.
  destruct (HandleRequest_shape env1 w)
    as [Hf|Hf|l0 rest Hf Hget|l0 rest partial Hf Hget Ht
       |l0 rest ids delta r Hf Hget Hdec Hm Hnd Hs Hfl Hok Her Hacc].
  - congruence.
  - (* nothing fetched: neither run gets past the deferred flush *)
    assert (ls = []) as -> by congruence. simpl.
    split; [split_and!; try done; [constructor | by rewrite app_nil_r]|].
    destruct (HandleRequest_shape env2 w)
      as [Hf'|Hf'|l2 rest2 Hf' _|l2 rest2 partial Hf' _ _
         |l2 rest2 ids2 delta2 r2 Hf' _ _ _ _ _ _ _ _ _];
      try congruence; done.
  - destruct Hsucc as [?| ->]; [discriminate | congruence].
  - rewrite Ht in Hempty. discriminate.
  - assert (ls = l0 :: rest) as -> by congruence.
    destruct Hsucc as [Hsucc|?]; [|discriminate].
    destruct (putitem_ok env1); [|discriminate].
    simpl in Hsucc. injection Hsucc as ->. cbn [final trace topic table].
    assert (ids = []) as -> by congruence.
    destruct (Hok eq_refl) as [Hsm Hall]. simpl in Hall.
    rewrite sends_app, app_nil_r, Hsm. split.
    { split_and!; try done.
      - by rewrite <- Hsm.
      - intros id. split.
        + intros Hin. apply list_elem_of_fmap in Hin as (l' & -> & Hl').
          rewrite <- Hsm in Hl'. destruct (Hs l' Hl') as [_ ?].
          by apply (list_elem_of_fmap_2 ID (l0 :: rest)).
        + intros Hin. apply list_elem_of_fmap in Hin as (l' & -> & Hl').
          by apply Hall. }
    set (w1 := mkWorld _ _).
    destruct (HandleRequest_shape env2 w1)
      as [Hf'|Hf'|l2 rest2 Hf' Hget2|l2 rest2 partial Hf' Hget2 Ht
         |l2 rest2 ids2 delta2 r2 Hf' Hget2 Hdec2 Hm2 Hnd2 Hs2 Hfl2 Hok2 Her2 Hacc2];
      try congruence; try done.
    assert (ids2 = ID <$> marks delta) as -> by (simpl in Hdec2; congruence).
    assert (l2 :: rest2 = l0 :: rest) as Hls by congruence.
    assert (Hnone : sends delta2 = []).
    { destruct (sends delta2) as [|x xs] eqn:Hx; [done|].
      destruct (Hs2 x) as [Hnot Hin]; [by left|].
      rewrite Hls in Hin. by specialize (Hall x Hin). }
    assert (Hmarks : marks delta2 = []).
    { destruct r2 as [e|].
      - destruct (Her2 e eq_refl) as (_ & l' & Heq & _). rewrite Hnone in Heq.
        by destruct (marks delta2).
      - destruct (Hok2 eq_refl) as [Heq _]. by rewrite <- Heq. }
    rewrite Hmarks. simpl. rewrite !app_nil_r.
    destruct (putitem_ok env2); simpl; by rewrite sends_app, Hnone.
Qed.

Lemma C4_witness :
  sends (trace (HandleRequest (envOK [lA; lB; lA])
                  (final (HandleRequest (envOK [lA; lB; lA]) (mkWorld (record []) [])))))
  = [].
Proof.
  apply (C4_second_run_sends_nothing
           (envOK [lA; lB; lA]) (envOK [lA; lB; lA]) (mkWorld (record []) [])
           [lA; lB; lA]); try reflexivity.
  left. reflexivity.
Defined.

(** On the fetch [A, B, A] from an empty record: what the first run
    sends and writes. *)
Example first_run_sends_each_id_once :
  sends (trace (HandleRequest (envOK [lA; lB; lA]) (mkWorld (record []) [])))
  = [lA; lB]
  ∧ table (final (HandleRequest (envOK [lA; lB; lA]) (mkWorld (record []) [])))
    = record ["A"; "B"].
Proof. split; reflexivity. Qed.

(** * The store on its own *)

(** ** Absent record and empty record (C7) *)

Section AbsentVsEmpty.
Context (env : Env) (tp : list PublishInput) (pk : string).

Lemma Seen_same_ids l d1 d2 :
  same_ids d1 d2 →
  (Seen env (absent_world tp) l d1).2 = (Seen env (empty_world pk tp) l d2).2
  ∧ same_ids (Seen env (absent_world tp) l d1).1
             (Seen env (empty_world pk tp) l d2).1.
Proof.
  unfold same_ids, Seen, refreshCache.
  destruct (cache d1) as [c1|] eqn:H1, (cache d2) as [c2|] eqn:H2;
    simpl; intros Heq; try discriminate.
  - rewrite H1, H2. simpl. injection Heq as Heq.
    by rewrite Heq, H1, H2; simpl; rewrite Heq.
  - destruct (getitem_ok env); simpl; by rewrite ?H1, ?H2.
Qed.

Lemma MarkSeen_same_ids l d1 d2 :
  same_ids d1 d2 → same_ids (MarkSeen l d1).1 (MarkSeen l d2).1.
Proof.
  unfold same_ids, MarkSeen.
  destruct (cache d1) as [c1|] eqn:H1, (cache d2) as [c2|] eqn:H2;
    simpl; intros Heq; try discriminate.
  - injection Heq as Heq. by rewrite Heq.
  - by rewrite H1, H2.
Qed.

Lemma apply_ops_same_ids ops : ∀ d1 d2,
  same_ids d1 d2 →
  same_ids (apply_ops env (absent_world tp) ops d1)
           (apply_ops env (empty_world pk tp) ops d2).
Proof.
  induction ops as [|op ops IH]; intros d1 d2 Hsame; [done|].
  simpl. apply IH. destruct op as [l|l]; simpl.
  - by apply Seen_same_ids.
  - by apply MarkSeen_same_ids.
Qed.

End AbsentVsEmpty.

(** C7: when the table read succeeds, loading with no record and loading
    a record with an empty identifier sequence both succeed with an empty
    working set, [Seen] answers false for every listing in both, and the
    answers stay the same after any further store operations. *)
Theorem C7_absent_record_is_empty_record env tp pk :
  getitem_ok env = true →
  (∃ cA cE,
     refreshCache env (absent_world tp) NewDB = (mkDB (Some cA), None)
     ∧ refreshCache env (empty_world pk tp) NewDB = (mkDB (Some cE), None)
     ∧ SeenIDs cA = [] ∧ SeenIDs cE = [])
  ∧ (∀ l,
       (Seen env (absent_world tp) l NewDB).2 = Return (false, None)
       ∧ (Seen env (empty_world pk tp) l NewDB).2 = Return (false, None))
  ∧ (∀ ops l,
       (Seen env (absent_world tp) l (apply_ops env (absent_world tp) ops NewDB)).2
       = (Seen env (empty_world pk tp) l
            (apply_ops env (empty_world pk tp) ops NewDB)).2).
Proof.
  intros Hget. split_and!.
  - exists (mkListingCache "" []), (mkListingCache pk []).
    unfold refreshCache. rewrite Hget. by simpl.
  - intros l. unfold Seen, refreshCache. rewrite Hget. by simpl.
  - intros ops l. apply Seen_same_ids. by apply apply_ops_same_ids.
Qed.

Lemma C7_witness :
  (Seen (envOK []) (absent_world []) lA NewDB).2 = Return (false, None)
  ∧ (Seen (envOK []) (empty_world dynamoPartitionKeyValue []) lA NewDB).2
      = Return (false, None).
Proof.
  destruct (C7_absent_record_is_empty_record (envOK []) [] dynamoPartitionKeyValue
              eq_refl) as (_ & Hfalse & _).
  apply Hfalse.
Defined.

(** ** Marking an identifier twice (C8) *)

(** C8, as stated, fails: marking A in a working set that already holds A
    changes the working set, which becomes [A, A], and changes the record
    a flush then writes. *)
Lemma C8_marking_twice_appends_twice :
  ID lA ∈ ["A"]
  ∧ (MarkSeen lA db_with_A).1 ≠ db_with_A
  ∧ (SeenIDs <$> cache (MarkSeen lA db_with_A).1) = Some ["A"; "A"]
  ∧ table (Flush (envOK []) (mkWorld Absent []) (MarkSeen lA db_with_A).1).1.2
    ≠ table (Flush (envOK []) (mkWorld Absent []) db_with_A).1.2.
Proof.
  split_and!; [by left | discriminate | reflexivity | discriminate].
Qed.

(** C8, amended: [MarkSeen] appends the identifier whether or not it is
    already in the working set. When it is, the set of identifiers denoted
    and every answer of [Seen] are unchanged, while the sequence itself,
    which is what a flush writes, has one more entry. *)
Theorem C8_marking_a_seen_id_keeps_the_set l d c :
  cache d = Some c → ID l ∈ SeenIDs c →
  ∃ c', MarkSeen l d = (mkDB (Some c'), None)
        ∧ SeenIDs c' = SeenIDs c ++ [ID l]
        ∧ seen_set c' = seen_set c
        ∧ ∀ env w l', (Seen env w l' (mkDB (Some c'))).2 = (Seen env w l' d).2.
Proof.
  intros Hc Hin. eexists. rewrite (MarkSeen_loaded _ _ _ Hc).
  split_and!; [done | done | |].
  - unfold seen_set; simpl. rewrite list_to_set_app_L. simpl.
    rewrite (right_id_L ∅ (∪)). apply set_eq. intros x.
    rewrite elem_of_union, elem_of_singleton, elem_of_list_to_set.
    split; [intros [? | ->]; done | by left].
  - intros env w l'. rewrite (Seen_loaded _ _ _ d c Hc).
    rewrite (Seen_loaded _ _ _ (mkDB (Some _)) _ eq_refl). simpl.
    rewrite scan_app. simpl.
    destruct (scan (ID l') (SeenIDs c)) eqn:Hs; [done|]. simpl.
    destruct (String.eqb_spec (ID l') (ID l)) as [Heq|]; [|done].
    apply scan_true_iff in Hin. congruence.
Qed.

Lemma C8_witness :
  ∃ c', MarkSeen lA db_with_A = (mkDB (Some c'), None)
        ∧ SeenIDs c' = ["A"; "A"]
        ∧ seen_set c' = {[ "A" ]}.
Proof.
  destruct (C8_marking_a_seen_id_keeps_the_set lA db_with_A
              (mkListingCache dynamoPartitionKeyValue ["A"]) eq_refl
              ltac:(by left)) as (c' & Hm & Hids & Hset & _).
  exists c'. split_and!; [done | done |].
  rewrite Hset. reflexivity.
Defined.

(** ** The working set only grows (C10) *)

Lemma apply_ops_loaded env w ops : ∀ d c,
  cache d = Some c →
  cache (apply_ops env w ops d)
  = Some (mkListingCache (PartitionKey c) (SeenIDs c ++ marked ops)).
Proof.
  induction ops as [|op ops IH]; intros d c Hc.
  - simpl. rewrite app_nil_r. by destruct c.
  - simpl. destruct op as [l|l]; simpl.
    + rewrite (Seen_loaded _ _ _ _ _ Hc). simpl. by apply IH.
    + rewrite (MarkSeen_loaded _ _ _ Hc). simpl.
      rewrite (IH (mkDB (Some _)) _ eq_refl). simpl. by rewrite <- app_assoc.
Qed.

(** C10: once the cache is loaded, [Seen] leaves the store as it is, every
    sequence of [Seen] and [MarkSeen] calls leaves a working sequence that
    extends the loaded one by the marked identifiers, in order, and a flush
    whose write succeeds stores that sequence: every identifier loaded or
    marked is in the record written. *)
Theorem C10_working_set_grows_and_is_flushed env w ops d c :
  cache d = Some c → putitem_ok env = true →
  (∀ l, (Seen env w l d).1 = d)
  ∧ (∀ l, ∃ c', cache (MarkSeen l d).1 = Some c' ∧ SeenIDs c `prefix_of` SeenIDs c')
  ∧ (∃ c', cache (apply_ops env w ops d) = Some c'
           ∧ SeenIDs c' = SeenIDs c ++ marked ops)
  ∧ (Flush env w (apply_ops env w ops d)).1.2
      = mkWorld (record (SeenIDs c ++ marked ops)) (topic w)
  ∧ (∀ id, id ∈ SeenIDs c ∨ id ∈ marked ops →
       id ∈ SeenIDs c ++ marked ops).
Proof.
  intros Hc Hput. split_and!.
  - intros l. by rewrite (Seen_loaded _ _ _ _ _ Hc).
  - intros l. rewrite (MarkSeen_loaded _ _ _ Hc). eexists; split; [done|].
    simpl. by apply prefix_app_r.
  - eexists. by rewrite (apply_ops_loaded _ _ _ _ _ Hc).
  - unfold Flush. rewrite (apply_ops_loaded _ _ _ _ _ Hc), Hput. done.
  - intros id. rewrite elem_of_app. done.
Qed.

Lemma C10_witness :
  (Flush (envOK []) (mkWorld Absent [])
     (apply_ops (envOK []) (mkWorld Absent []) [OpSeen lB; OpMarkSeen lB; OpSeen lA]
        db_with_A)).1.2
  = mkWorld (record ["A"; "B"]) [].
Proof.
  apply (C10_working_set_grows_and_is_flushed (envOK []) (mkWorld Absent [])
           [OpSeen lB; OpMarkSeen lB; OpSeen lA] db_with_A
           (mkListingCache dynamoPartitionKeyValue ["A"]));
    reflexivity.
Defined.

(** The same at the level of a run: whenever the store was loaded and the
    deferred flush wrote, the record holds the loaded identifiers followed
    by those marked during the run. *)
Corollary run_writes_loaded_and_marked env w ids r :
  decodes (table w) = Some ids →
  outcome (HandleRequest env w) = Returned r → r ≠ Some FetchError →
  table (final (HandleRequest env w))
  = record (ids ++ (ID <$> marks (trace (HandleRequest env w)))).
Proof.
  intros Hids.
  destruct (HandleRequest_shape env w)
    as [Hf|Hf|l0 rest Hf Hget|l0 rest partial Hf Hget Ht
       |l0 rest ids' delta r' Hf Hget Hdec Hm Hnd Hs Hfl Hok Her Hacc];
    simpl; try discriminate.
  - intros [= <-] Hne. done.
  - rewrite Ht in Hids. discriminate.
  - destruct (putitem_ok env); [|discriminate]. simpl. intros _ _.
    rewrite marks_app, app_nil_r. congruence.
Qed.

(** * Further properties of the store *)

Lemma scan_bool_decide id ids : scan id ids = bool_decide (id ∈ ids).
Proof.
  destruct (scan id ids) eqn:Hs; symmetry.
  - apply bool_decide_eq_true. by apply scan_true_iff.
  - apply bool_decide_eq_false. by apply scan_false_iff.
Qed.

(** X1: on a loaded store [Seen] is exact membership of the listing's
    identifier in the cached sequence; it returns no error, leaves the
    store as it is, and reads neither the table nor any external verdict
    (the cache is never refreshed once populated). *)
Theorem X1_Seen_loaded_is_membership env w l d c :
  cache d = Some c →
  Seen env w l d = (d, Return (bool_decide (ID l ∈ SeenIDs c), None)).
Proof.
  intros Hc. by rewrite (Seen_loaded _ _ _ _ _ Hc), scan_bool_decide.
Qed.

Lemma X1_witness :
  Seen (envNoRead []) (mkWorld Absent []) lB db_with_A
  = (db_with_A, Return (bool_decide (ID lB ∈ ["A"]), None)).
Proof.
  apply (X1_Seen_loaded_is_membership (envNoRead []) (mkWorld Absent []) lB
           db_with_A (mkListingCache dynamoPartitionKeyValue ["A"])).
  reflexivity.
Defined.

(** X2: lookup after insert. On a loaded store [MarkSeen] succeeds, and a
    [Seen] that follows answers true exactly for the marked identifier and
    for those already cached. *)
Theorem X2_Seen_after_MarkSeen env w l l' d c :
  cache d = Some c →
  (MarkSeen l d).2 = None
  ∧ (Seen env w l' (MarkSeen l d).1).2
    = Return (bool_decide (ID l' = ID l ∨ ID l' ∈ SeenIDs c), None).
Proof.
  intros Hc. rewrite (MarkSeen_loaded _ _ _ Hc). split; [done|]. cbn [fst].
  rewrite (Seen_loaded _ _ _ (mkDB (Some _)) _ eq_refl). simpl.
  rewrite scan_bool_decide. do 2 f_equal. apply bool_decide_ext.
  rewrite elem_of_app, list_elem_of_singleton. tauto.
Qed.

Lemma X2_witness :
  (Seen (envOK []) (mkWorld Absent []) lB (MarkSeen lB db_with_A).1).2
  = Return (true, None).
Proof.
  pose proof (X2_Seen_after_MarkSeen (envOK []) (mkWorld Absent []) lB lB
                db_with_A (mkListingCache dynamoPartitionKeyValue ["A"])
                eq_refl) as [_ Hseen].
  rewrite Hseen. reflexivity.
Defined.

(** X3: write then read. What a successful [Flush] stores is what a fresh
    store loads on its first [Seen]: the reloaded cache holds the flushed
    identifier sequence under the fixed partition key, and the fresh store
    answers every query as the flushed one did. *)
Theorem X3_Flush_then_load env env' w d c :
  cache d = Some c → putitem_ok env = true → getitem_ok env' = true →
  refreshCache env' (Flush env w d).1.2 NewDB
  = (mkDB (Some (mkListingCache dynamoPartitionKeyValue (SeenIDs c))), None)
  ∧ ∀ l, (Seen env' (Flush env w d).1.2 l NewDB).2 = (Seen env w l d).2.
Proof.
  intros Hc Hput Hget. unfold Flush. rewrite Hc, Hput. simpl. split.
  - unfold refreshCache. by rewrite Hget.
  - intros l. rewrite (Seen_loaded _ _ _ _ _ Hc).
    unfold Seen, refreshCache. simpl. by rewrite Hget.
Qed.

Lemma X3_witness :
  refreshCache (envOK []) (Flush (envOK []) (mkWorld Absent []) db_with_A).1.2 NewDB
  = (db_with_A, None).
Proof.
  apply (X3_Flush_then_load (envOK []) (envOK []) (mkWorld Absent []) db_with_A
           (mkListingCache dynamoPartitionKeyValue ["A"])); reflexivity.
Defined.

(** X4: what [Flush] leaves alone. It never touches the topic nor the
    cached identifier sequence; unless the write succeeded the world is
    unchanged; and flushing again, from the store and world it left,
    changes nothing more. *)
Theorem X4_Flush_frame_and_idempotence env w d :
  topic (Flush env w d).1.2 = topic w
  ∧ SeenIDs <$> cache (Flush env w d).1.1 = SeenIDs <$> cache d
  ∧ ((Flush env w d).2 ≠ Return None → (Flush env w d).1.2 = w)
  ∧ Flush env (Flush env w d).1.2 (Flush env w d).1.1 = Flush env w d.
Proof.
  unfold Flush. destruct (cache d) as [c|] eqn:Hc; simpl.
  - destruct (putitem_ok env) eqn:Hput; simpl; rewrite ?Hput; by split_and!.
  - rewrite ?Hc. by split_and!.
Qed.

(** X5: the store before any load. [MarkSeen] fails with the
    not-populated error and leaves the store unloaded; a [Seen] whose
    table read fails returns that error and also leaves it unloaded, so
    the next [Seen] performs the load again and, the read now succeeding,
    answers membership in the stored sequence. *)
Theorem X5_unloaded_store_retries_load env1 env2 w l l' d ids :
  cache d = None → getitem_ok env1 = false → getitem_ok env2 = true →
  decodes (table w) = Some ids →
  MarkSeen l d = (d, Some CacheNotPopulated)
  ∧ Seen env1 w l d = (d, Return (false, Some GetItemError))
  ∧ (Seen env2 w l' (Seen env1 w l d).1).2
    = Return (bool_decide (ID l' ∈ ids), None).
Proof.
  intros Hc Hg1 Hg2 Hdec.
  assert (HS1 : Seen env1 w l d = (d, Return (false, Some GetItemError))).
  { unfold Seen, refreshCache. by rewrite Hc, Hg1. }
  split_and!; [unfold MarkSeen; by rewrite Hc | done |].
  rewrite HS1. simpl. unfold Seen, refreshCache. rewrite Hc, Hg2.
  rewrite <- scan_bool_decide.
  destruct (table w) as [|c0|p]; simpl in Hdec; try discriminate;
    injection Hdec as <-; simpl; by rewrite ?Hc.
Qed.

Lemma X5_witness :
  (Seen (envOK []) (mkWorld (record ["A"]) []) lA
     (Seen (envNoRead []) (mkWorld (record ["A"]) []) lB NewDB).1).2
  = Return (true, None).
Proof.
  pose proof (X5_unloaded_store_retries_load (envNoRead []) (envOK [])
                (mkWorld (record ["A"]) []) lB lA NewDB ["A"]
                eq_refl eq_refl eq_refl eq_refl) as (_ & _ & Hretry).
  rewrite Hretry. reflexivity.
Defined.

(** * Further properties of the run *)

(** ** What the loop depends on *)

Lemma Seen_frame env env' w w' l d :
  getitem_ok env = getitem_ok env' → table w = table w' →
  Seen env w l d = Seen env' w' l d.
Proof. unfold Seen, refreshCache. by intros -> ->. Qed.

(** The loop reads the table and the read and publish verdicts, nothing
    else: not the write verdict, not the topic. *)
Lemma process_frame env env' ls :
  getitem_ok env = getitem_ok env' →
  (∀ l, publish_ok env l = publish_ok env' l) →
  ∀ st st',
    db st = db st' → table (world st) = table (world st') →
    calls st = calls st' →
    (process env ls st).2 = (process env' ls st').2
    ∧ db (process env ls st).1 = db (process env' ls st').1
    ∧ calls (process env ls st).1 = calls (process env' ls st').1
    ∧ table (world (process env ls st).1) = table (world (process env' ls st').1)
    ∧ ∃ added,
        topic (world (process env ls st).1) = topic (world st) ++ added
        ∧ topic (world (process env' ls st').1) = topic (world st') ++ added.
Proof.
  intros Hget Hpub. induction ls as [|l ls IH]; intros st st' Hdb Ht Hcalls.
  { simpl. split_and!; try done. exists []. by rewrite !app_nil_r. }
  simpl. rewrite (Seen_frame env env' (world st) (world st') l (db st) Hget Ht).
  rewrite Hdb, Hcalls.
  destruct (Seen env' (world st') l (db st')) as [d1 [[[] [e|]]|]]; simpl;
    try (split_and!; try done; exists []; by rewrite !app_nil_r).
  - by apply (IH (mkState d1 (world st)
                    (calls st' ++ [CallSeen l (Return (true, None))]))
                 (mkState d1 (world st')
                    (calls st' ++ [CallSeen l (Return (true, None))]))).
  - unfold SendListingAlert. rewrite Hpub.
    destruct (publish_ok env' l); simpl.
    + destruct (MarkSeen l d1) as [d3 m].
      destruct (IH (mkState d3 (mkWorld (table (world st))
                                  (topic (world st) ++ [alertInput l]))
                      (((calls st' ++ [CallSeen l (Return (false, None))])
                          ++ [CallSend l None]) ++ [CallMarkSeen l m]))
                   (mkState d3 (mkWorld (table (world st'))
                                  (topic (world st') ++ [alertInput l]))
                      (((calls st' ++ [CallSeen l (Return (false, None))])
                          ++ [CallSend l None]) ++ [CallMarkSeen l m]))
                   eq_refl Ht eq_refl)
        as (Hr & Hd & Hc & Htb & added & Ha & Ha').
      split_and!; try done.
      exists (alertInput l :: added). simpl in Ha, Ha'.
      rewrite Ha, Ha', <- !app_assoc. done.
    + split_and!; try done. exists []. by rewrite !app_nil_r.
Qed.

(** The sends of the loop are fetched listings, in fetch order. *)
Lemma process_sends_sublist env ls : ∀ st,
  ∃ s, sends (calls (process env ls st).1) = sends (calls st) ++ s
       ∧ s `sublist_of` ls.
Proof.
  induction ls as [|l ls IH]; intros st.
  { exists []. simpl. rewrite app_nil_r. split; [done | constructor]. }
  simpl.
  destruct (Seen env (world st) l (db st)) as [d1 [[[] [e|]]|]]; simpl;
    try (exists []; rewrite sends_app, !app_nil_r; simpl; rewrite ?app_nil_r;
         split; [done | apply sublist_nil_l]).
  - destruct (IH (mkState d1 (world st)
                    (calls st ++ [CallSeen l (Return (true, None))])))
      as (s & Hs & Hsub).
    exists s. rewrite Hs. simpl. rewrite sends_app. simpl. rewrite app_nil_r.
    split; [done | by apply sublist_cons].
  - destruct (SendListingAlert env (world st) l) as [w2 [e|]]; simpl.
    + exists [l]. rewrite !sends_app. simpl. rewrite app_nil_r.
      split; [done|]. apply sublist_skip, sublist_nil_l.
    + destruct (MarkSeen l d1) as [d3 m].
      destruct (IH (mkState d3 w2
                      (((calls st ++ [CallSeen l (Return (false, None))])
                          ++ [CallSend l None]) ++ [CallMarkSeen l m])))
        as (s & Hs & Hsub).
      exists (l :: s). rewrite Hs. simpl. rewrite !sends_app. simpl.
      rewrite !app_nil_r, <- app_assoc. split; [done | by apply sublist_skip].
Qed.

Lemma deferred_trace env st r :
  trace (deferred env st r)
  = calls st ++ [CallFlush (Flush env (world st) (db st)).2].
Proof.
  unfold deferred. destruct (Flush env (world st) (db st)) as [[d' w'] [[e|]|]];
    simpl; [done | | done]. by destruct r.
Qed.

Lemma HandleRequest_trace env w ls :
  fetch_response env = Some (mkListings ls) →
  ∃ f, trace (HandleRequest env w)
       = calls (process env ls (mkState NewDB w [])).1 ++ [CallFlush f].
Proof.
  intros Hf. rewrite (HandleRequest_fetched _ _ _ Hf).
  destruct (process env ls (mkState NewDB w [])) as [st r].
  eexists. apply deferred_trace.
Qed.

(** Case analysis on the shape of the run of [env] from [w]. *)
Ltac run_cases env w :=
  let Hf := fresh "Hf" in
  let Hget := fresh "Hget" in
  let Ht := fresh "Ht" in
  let Hdec := fresh "Hdec" in
  let Hm := fresh "Hm" in
  let Hnd := fresh "Hnd" in
  let Hs := fresh "Hs" in
  let Hfl := fresh "Hfl" in
  let Hok := fresh "Hok" in
  let Her := fresh "Her" in
  let Hacc := fresh "Hacc" in
  destruct (HandleRequest_shape env w)
    as [Hf|Hf|? ? Hf Hget|? ? ? Hf Hget Ht
       |? ? ? ?delta ?r Hf Hget Hdec Hm Hnd Hs Hfl Hok Her Hacc].

(** The item cannot both decode and be undecodable. *)
Ltac undecodable_absurd :=
  match goal with
  | Ht : table ?w = Undecodable _, Hd : decodes (table ?w) = Some _ |- _ =>
      rewrite Ht in Hd; discriminate
  end.

(** ** Which listings are alerted *)

(** X6: the listings a run calls [SendListingAlert] for are fetched
    listings, in the order of the fetch; none when the fetch failed. *)
Theorem X6_sends_follow_fetch_order env w :
  sends (trace (HandleRequest env w))
    `sublist_of` default [] (Results <$> fetch_response env).
Proof.
  destruct (fetch_response env) as [[ls]|] eqn:Hf; simpl.
  - destruct (HandleRequest_trace env w ls Hf) as [f ->].
    destruct (process_sends_sublist env ls (mkState NewDB w [])) as (s & Hs & Hsub).
    rewrite sends_app, Hs. simpl. by rewrite app_nil_r.
  - unfold HandleRequest, fetchListings. rewrite Hf. simpl. constructor.
Qed.

(** X7: no run alerts for an identifier the loaded record already held. *)
Theorem X7_no_alert_for_a_stored_identifier env w ids l :
  decodes (table w) = Some ids →
  l ∈ sends (trace (HandleRequest env w)) →
  ID l ∉ ids.
Proof.
  intros Hids. run_cases env w; simpl; intros Hin; try (by no_elem).
  - rewrite Ht in Hids. discriminate.
  - assert (Hd : l ∈ sends delta).
    { destruct (putitem_ok env); simpl in Hin;
        by rewrite sends_app, app_nil_r in Hin. }
    destruct (Hs l Hd) as [Hnot _]. congruence.
Qed.

Lemma X7_witness : ID lB ∉ ["A"].
Proof.
  apply (X7_no_alert_for_a_stored_identifier
           (envOK [lA; lB; lC]) (mkWorld (record ["A"]) []) ["A"] lB eq_refl).
  vm_compute. repeat constructor.
Defined.

(** ** What a run leaves behind *)

(** X8: the bookkeeping of a run. The topic gains exactly the alerts of
    the listings that were marked, in order, all of them accepted sends;
    and the table either is left as it was, or, when the deferred flush
    wrote, holds the loaded identifiers followed by the marked ones. *)
Theorem X8_topic_and_table_after_a_run env w ids :
  decodes (table w) = Some ids →
  topic (final (HandleRequest env w))
  = topic w ++ (alertInput <$> marks (trace (HandleRequest env w)))
  ∧ (∀ l, l ∈ marks (trace (HandleRequest env w)) → publish_ok env l = true)
  ∧ table (final (HandleRequest env w))
    = if flushed (trace (HandleRequest env w))
      then record (ids ++ (ID <$> marks (trace (HandleRequest env w))))
      else table w.
Proof.
  intros Hids. run_cases env w; simpl;
    try (rewrite app_nil_r; split_and!; [done | by intros; no_elem | done]).
  - rewrite Ht in Hids. discriminate.
  - assert (ids0 = ids) as -> by congruence.
    destruct (putitem_ok env); simpl; unfold flushed;
      rewrite marks_app, last_snoc, app_nil_r; simpl; by split_and!.
Qed.

Lemma X8_witness :
  table (final (HandleRequest (envOK [lA; lB; lC]) (mkWorld (record ["A"]) [])))
  = record ["A"; "B"; "C"].
Proof.
  destruct (X8_topic_and_table_after_a_run
              (envOK [lA; lB; lC]) (mkWorld (record ["A"]) []) ["A"] eq_refl)
    as (_ & _ & Htable).
  rewrite Htable. reflexivity.
Defined.

(** X9: a failed flush, then a second run. When the table write fails the
    process exits through [log.Fatal] with the table as it was, although
    the alerts of the run are on the topic; the next run over the same
    fetch, its write succeeding, sends for the same listings again, so
    each such alert is on the topic twice. *)
Theorem X9_failed_flush_then_rerun_duplicates env w ls ids :
  fetch_response env = Some (mkListings ls) → ls ≠ [] →
  getitem_ok env = true → putitem_ok env = false →
  decodes (table w) = Some ids →
  outcome (HandleRequest env w) = Exited PutItemError
  ∧ table (final (HandleRequest env w)) = table w
  ∧ topic (final (HandleRequest env w))
    = topic w ++ (alertInput <$> marks (trace (HandleRequest env w)))
  ∧ sends (trace (HandleRequest (with_putitem true env) (final (HandleRequest env w))))
    = sends (trace (HandleRequest env w))
  ∧ topic (final (HandleRequest (with_putitem true env) (final (HandleRequest env w))))
    = topic w ++ (alertInput <$> marks (trace (HandleRequest env w)))
              ++ (alertInput <$> marks (trace (HandleRequest env w))).
Proof.
  intros Hfetch Hne Hget Hput Hids.
  pose proof (process_frame env (with_putitem true env) ls eq_refl
                (λ _, eq_refl)) as Hframe.
  destruct (HandleRequest_trace env w ls Hfetch) as [f1 Htr1].
  run_cases env w; try congruence; [by undecodable_absurd|].
  rewrite Hput in *. simpl in *.
  apply app_inj_tail in Htr1 as [Hdelta _].
  rewrite sends_app, marks_app, !app_nil_r.
  set (w1 := mkWorld (table w) _).
  assert (Hfetch2 : fetch_response (with_putitem true env) = Some (mkListings ls))
    by done.
  destruct (HandleRequest_trace (with_putitem true env) w1 ls Hfetch2) as [f2 Htr2].
  destruct (Hframe (mkState NewDB w []) (mkState NewDB w1 []) eq_refl eq_refl eq_refl)
    as (_ & _ & Hcalls & _).
  rewrite <- Hcalls, <- Hdelta in Htr2.
  run_cases (with_putitem true env) w1; subst w1; simpl in *; try congruence;
    [by undecodable_absurd|].
  apply app_inj_tail in Htr2 as [-> _].
  rewrite sends_app, app_nil_r. split_and!; try done.
  by rewrite <- app_assoc.
Qed.

Lemma X9_witness :
  topic (final (HandleRequest (with_putitem true (envNoWrite [lA]))
                  (final (HandleRequest (envNoWrite [lA]) (mkWorld Absent [])))))
  = [alertInput lA; alertInput lA].
Proof.
  destruct (X9_failed_flush_then_rerun_duplicates
              (envNoWrite [lA]) (mkWorld Absent []) [lA] []
              eq_refl ltac:(discriminate) eq_refl eq_refl eq_refl)
    as (_ & _ & _ & _ & Htopic).
  rewrite Htopic. reflexivity.
Defined.

(** X10: a rejected send is not recorded. When a run returns the publish
    error, the rejected listing is the last one sent, every earlier send
    was marked, and the record the deferred flush wrote does not contain
    the rejected listing's identifier: a later run finds it unseen. *)
Theorem X10_rejected_send_is_not_recorded env w :
  outcome (HandleRequest env w) = Returned (Some PublishError) →
  ∃ l ids,
    sends (trace (HandleRequest env w)) = marks (trace (HandleRequest env w)) ++ [l]
    ∧ publish_ok env l = false
    ∧ table (final (HandleRequest env w)) = record ids
    ∧ ID l ∉ ids.
Proof.
  run_cases env w; try discriminate.
  { destruct (putitem_ok env); discriminate. }
  destruct (putitem_ok env); [|discriminate]. simpl. intros [= ->].
  destruct (Her PublishError eq_refl) as (_ & l' & Hsd & Hrej).
  exists l', (ids ++ (ID <$> marks delta)).
  rewrite sends_app, marks_app, !app_nil_r. split_and!; try done.
  intros Hin. apply elem_of_app in Hin as [Hin|Hin].
  - destruct (Hs l') as [Hnot _]; [|done]. rewrite Hsd. apply elem_of_app; right; by left.
  - rewrite Hsd, fmap_app in Hnd. apply NoDup_app in Hnd as (_ & Hdis & _).
    apply (Hdis (ID l') Hin). by left.
Qed.

Lemma X10_witness :
  ∃ l ids,
    sends (trace run_second_rejected) = marks (trace run_second_rejected) ++ [l]
    ∧ publish_ok (envRejecting "B" [lA; lB; lC]) l = false
    ∧ table (final run_second_rejected) = record ids
    ∧ ID l ∉ ids.
Proof.
  apply (X10_rejected_send_is_not_recorded
           (envRejecting "B" [lA; lB; lC]) (mkWorld (record ["Z"]) [])).
  reflexivity.
Defined.

(** X11: nothing fetched is left out. When a run returns nil, the item
    decoded, every send was accepted, the record written is the loaded
    identifiers followed by those of the listings sent, and it contains
    the identifier of every fetched listing. *)
Theorem X11_nil_return_records_every_fetched_id env w ls :
  outcome (HandleRequest env w) = Returned None →
  fetch_response env = Some (mkListings ls) →
  ∃ prior,
    decodes (table w) = Some prior
    ∧ table (final (HandleRequest env w))
      = record (prior ++ (ID <$> sends (trace (HandleRequest env w))))
    ∧ (∀ l, l ∈ ls →
         ID l ∈ prior ++ (ID <$> sends (trace (HandleRequest env w))))
    ∧ (∀ l, l ∈ sends (trace (HandleRequest env w)) → publish_ok env l = true).
Proof.
  run_cases env w; try discriminate.
  { destruct (putitem_ok env); discriminate. }
  destruct (putitem_ok env); [|discriminate]. simpl. intros [= ->] Hfetch.
  assert (ls = l :: rest) as -> by congruence.
  destruct (Hok eq_refl) as [Hsm Hall].
  exists ids. rewrite sends_app, app_nil_r, Hsm. split_and!; try done.
Qed.

Lemma X11_witness :
  ∃ prior,
    decodes (Stored (mkListingCache dynamoPartitionKeyValue ["A"])) = Some prior
    ∧ table (final (HandleRequest (envOK [lA; lB; lC]) (mkWorld (record ["A"]) [])))
      = record (prior ++ (ID <$> sends (trace (HandleRequest (envOK [lA; lB; lC])
                                                 (mkWorld (record ["A"]) [])))))
    ∧ (∀ l, l ∈ [lA; lB; lC] →
         ID l ∈ prior ++ (ID <$> sends (trace (HandleRequest (envOK [lA; lB; lC])
                                                 (mkWorld (record ["A"]) [])))))
    ∧ (∀ l, l ∈ sends (trace (HandleRequest (envOK [lA; lB; lC])
                                (mkWorld (record ["A"]) []))) →
         publish_ok (envOK [lA; lB; lC]) l = true).
Proof.
  apply (X11_nil_return_records_every_fetched_id
           (envOK [lA; lB; lC]) (mkWorld (record ["A"]) []) [lA; lB; lC]);
    reflexivity.
Defined.

(** X12: a run that fetches only listings whose identifiers the stored
    record already holds sends nothing and leaves the topic as it was and
    the stored identifiers as they were, whatever the table read and the
    table write answer. *)
Theorem X12_all_recorded_run_is_quiet env w ls c :
  table w = Stored c →
  fetch_response env = Some (mkListings ls) →
  (∀ l, l ∈ ls → ID l ∈ SeenIDs c) →
  sends (trace (HandleRequest env w)) = []
  ∧ topic (final (HandleRequest env w)) = topic w
  ∧ decodes (table (final (HandleRequest env w))) = Some (SeenIDs c).
Proof.
  intros Htab Hfetch Hall.
  assert (Hids : decodes (table w) = Some (SeenIDs c)) by (by rewrite Htab).
  run_cases env w; simpl; try congruence; try done; try (by undecodable_absurd).
  assert (ids = SeenIDs c) as -> by congruence.
  assert (ls = l :: rest) as -> by congruence.
  assert (Hnone : sends delta = []).
  { destruct (sends delta) as [|x xs] eqn:Hx; [done|].
    destruct (Hs x) as [Hnot Hin]; [by left|]. by specialize (Hall x Hin). }
  assert (Hmarks : marks delta = []).
  { destruct r as [e|].
    - destruct (Her e eq_refl) as (_ & l' & Heq & _). rewrite Hnone in Heq.
      by destruct (marks delta).
    - destruct (Hok eq_refl) as [Heq _]. by rewrite <- Heq. }
  rewrite Hmarks. simpl. rewrite !app_nil_r.
  destruct (putitem_ok env); simpl; by rewrite sends_app, Hnone.
Qed.

Lemma X12_witness :
  sends (trace (HandleRequest (envNoWrite [lA; lA]) (mkWorld (record ["A"]) []))) = [].
Proof.
  apply (X12_all_recorded_run_is_quiet (envNoWrite [lA; lA])
           (mkWorld (record ["A"]) []) [lA; lA]
           (mkListingCache dynamoPartitionKeyValue ["A"]) eq_refl eq_refl).
  intros l Hl. apply elem_of_cons in Hl as [-> | Hl]; [by left|].
  apply list_elem_of_singleton in Hl as ->. by left.
Defined.

(** ** How a run ends *)

(** X13: a run of [HandleRequest], session step included, panics exactly
    when the session cannot be built, or the fetch succeeded and either
    nothing was fetched or the table read failed. In each case nothing was
    sent and the world is untouched; when the session was built the panic
    is the one of the deferred flush. *)
Theorem X13_when_a_run_panics session_ok env w :
  (outcome (HandleRequest_entry session_ok env w) = Panicked
   ↔ session_ok = false
     ∨ ∃ ls, fetch_response env = Some (mkListings ls)
             ∧ (ls = [] ∨ getitem_ok env = false))
  ∧ (outcome (HandleRequest_entry session_ok env w) = Panicked →
     final (HandleRequest_entry session_ok env w) = w
     ∧ sends (trace (HandleRequest_entry session_ok env w)) = []
     ∧ (session_ok = true →
        last (trace (HandleRequest_entry session_ok env w))
        = Some (CallFlush NilDeref))).
Proof.
  unfold HandleRequest_entry. destruct session_ok.
  2:{ simpl. split; [split; [by left | done] | intros _; by split_and!]. }
  run_cases env w; simpl.
  - split; [split; [discriminate | intros [?|(ls & ? & _)]; congruence]
           | discriminate].
  - split; [split; [intros _; right; exists []; split; [done | by left] | done]
           | done].
  - split; [split; [intros _; right; eexists; split; [done | by right] | done]
           | done].
  - destruct (putitem_ok env); simpl;
      (split; [split; [discriminate
                      | intros [?|(ls & ? & [-> | ?])]; congruence]
              | discriminate]).
  - destruct (putitem_ok env); simpl;
      (split; [split; [discriminate
                      | intros [?|(ls & ? & [-> | ?])]; congruence]
              | discriminate]).
Qed.

(** X14: [Flush] is called exactly once in a run whose fetch succeeded,
    as the last call of the run, and not at all when the fetch failed
    (the run then makes no call on the store or the notifier). *)
Theorem X14_one_flush_at_the_end env w :
  match fetch_response env with
  | Some _ =>
      ∃ pre f, trace (HandleRequest env w) = pre ++ [CallFlush f]
               ∧ flushes pre = 0
  | None => trace (HandleRequest env w) = []
  end.
Proof.
  run_cases env w; rewrite Hf; simpl; try done.
  - by exists [], NilDeref.
  - by exists [CallSeen l (Return (false, Some GetItemError))], NilDeref.
  - destruct (putitem_ok env); simpl; eexists [_], _; by split.
  - destruct (putitem_ok env); simpl; by eexists delta, _.
Qed.

(** X15: a run ends in [log.Fatal] only through a failed table write, and
    then the table is as it was before the run. *)
Theorem X15_fatal_exit_is_a_failed_write env w e :
  outcome (HandleRequest env w) = Exited e →
  e = PutItemError ∧ putitem_ok env = false
  ∧ table (final (HandleRequest env w)) = table w.
Proof.
  run_cases env w; simpl; try discriminate;
    destruct (putitem_ok env); simpl; try discriminate; by intros [= <-].
Qed.

Lemma X15_witness :
  table (final (HandleRequest (envNoWrite [lA]) (mkWorld (record ["Z"]) [])))
  = record ["Z"].
Proof.
  apply (X15_fatal_exit_is_a_failed_write
           (envNoWrite [lA]) (mkWorld (record ["Z"]) []) PutItemError).
  reflexivity.
Defined.

(** * Startup and the notifier *)

(** X16: [init] returns exactly when the four required variables are all
    set and non-empty, with the configuration read from them; otherwise it
    panics, and the message names the first of them, in the order
    AWS_REGION, AWS_ACCOUNT_ID, DYNAMO_TABLE_NAME, SNS_TOPIC_NAME, that is
    unset or empty. *)
Theorem X16_init_requires_the_four_variables getenv :
  init getenv
  = match first_unset getenv required_keys with
    | Some k => PanicWith ("Required environment variable not set: " +:+ k)
    | None =>
        Started (mkConfig (getenv "AWS_REGION") (getenv "AWS_ACCOUNT_ID")
                   (getenv "DYNAMO_TABLE_NAME") (getenv "SNS_TOPIC_NAME"))
    end
  ∧ ((∃ cfg, init getenv = Started cfg)
     ↔ Forall (λ k, getenv k ≠ "") required_keys).
Proof.
  unfold init, requiredEnvVar, required_keys. simpl.
  destruct (String.eqb_spec (getenv "AWS_REGION") "");
    [split; [done|]; split;
       [intros [? ?]; discriminate | rewrite !Forall_cons; tauto]|].
  destruct (String.eqb_spec (getenv "AWS_ACCOUNT_ID") "");
    [split; [done|]; split;
       [intros [? ?]; discriminate | rewrite !Forall_cons; tauto]|].
  destruct (String.eqb_spec (getenv "DYNAMO_TABLE_NAME") "");
    [split; [done|]; split;
       [intros [? ?]; discriminate | rewrite !Forall_cons; tauto]|].
  destruct (String.eqb_spec (getenv "SNS_TOPIC_NAME") "");
    [split; [done|]; split;
       [intros [? ?]; discriminate | rewrite !Forall_cons; tauto]|].
  split; [done|]. split; [|by eexists].
  intros _. by repeat constructor.
Qed.

(** With the account identifier missing, startup panics naming it; with
    the four variables set, the notifier's topic ARN is assembled from
    three of them. *)
Example init_without_account :
  init getenv_no_account
  = PanicWith "Required environment variable not set: AWS_ACCOUNT_ID".
Proof. reflexivity. Qed.

Example init_complete_topicArn :
  ∃ cfg, init getenv_complete = Started cfg
         ∧ topicArn cfg = "arn:aws:sns:ca-central-1:123456789012:alerts".
Proof. eexists. split; reflexivity. Qed.

(** X17: the alert of a listing carries the fixed subject and, as its
    body, the base URL followed by the listing's relative path; it does
    not carry the identifier, so two listings have the same alert exactly
    when they have the same relative path. *)
Theorem X17_alert_is_determined_by_the_path l l' :
  Subject (alertInput l) = "New listing on Realtor.ca"
  ∧ Message (alertInput l) = "https://realtor.ca" +:+ RelativeDetailsURL l
  ∧ (alertInput l = alertInput l' ↔ RelativeDetailsURL l = RelativeDetailsURL l').
Proof.
  split_and!; [done | done |]. split.
  - intros Heq. apply (f_equal Message) in Heq.
    unfold alertInput, formatMessage, URL in Heq. cbn [Message] in Heq.
    by apply (inj (String.app baseURL)) in Heq.
  - unfold alertInput, formatMessage, formatSubject, URL. by intros ->.
Qed.

(** X18: the topic ARN of the notifier does not depend on the table name,
    and for a given region and account distinct topic names give distinct
    ARNs. *)
Theorem X18_topicArn_determines_the_topic_name region account tbl tbl' name name' :
  topicArn (mkConfig region account tbl name)
  = topicArn (mkConfig region account tbl' name')
  ↔ name = name'.
Proof.
  unfold topicArn. cbn [awsRegion awsAccountId snsTopicName].
  split; [|by intros ->].
  intros Heq.
  apply (inj (String.app "arn:aws:sns:")) in Heq.
  apply (inj (String.app region)) in Heq.
  apply (inj (String.app ":")) in Heq.
  apply (inj (String.app account)) in Heq.
  by apply (inj (String.app ":")) in Heq.
Qed.
